(** * promise-pool: the executor of [src/promise-pool-executor.ts]

    A shallow embedding of the class [PromisePoolExecutor] and of the
    part of the JavaScript run time it relies on (dynamically typed
    values, promises settled by the event loop), followed by the
    properties of the pool: the concurrency bound, the accounting of
    results and errors, the treatment of failures and of the error
    handler, input validation and the configuration setters. *)

From Stdlib Require Import QArith Lia Lqa.
From stdpp Require Import base option list strings.

Local Open Scope string_scope.
Local Open Scope list_scope.
Local Open Scope nat_scope.

(** ** JavaScript numbers

    A [number] is a double: [NaN], an infinity, or a finite value, which
    is a rational.  Comparisons of doubles are exact, so a finite number
    is represented by the rational it denotes. *)

Inductive JsNumber :=
  | NaN
  | Num (q : Q)
  | PosInfinity
  | NegInfinity.

(** [a >= b] on numbers: false as soon as one side is [NaN]. *)
Definition num_ge (a b : JsNumber) : bool :=
  match a, b with
  | NaN, _ | _, NaN => false
  | _, NegInfinity => true
  | PosInfinity, _ => true
  | NegInfinity, _ => false
  | Num _, PosInfinity => false
  | Num x, Num y => Qle_bool y x
  end.

(** The number held by [array.length]. *)
Definition num_of_length (n : nat) : JsNumber := Num (inject_Z (Z.of_nat n)).

Definition is_integer (q : Q) : Prop := ∃ z : Z, (q == inject_Z z)%Q.

(** ** JavaScript values

    The fields of the executor are typed in TypeScript, but
    [validateInputs] inspects them at run time, so a field holds an
    arbitrary value.  [F] is the signature expected of a function stored
    in the field; [T] is the type of the items. *)

Section Values.
Context {T F : Type}.

Inductive JsValue :=
  | JUndefined
  | JNull
  | JBool (b : bool)
  | JNumber (n : JsNumber)
  | JString (s : string)
  | JObject
  | JArray (xs : list T)
  | JFunction (f : F).

(** [typeof v] *)
Definition typeof (v : JsValue) : string :=
  match v with
  | JUndefined => "undefined"
  | JNull => "object"
  | JBool _ => "boolean"
  | JNumber _ => "number"
  | JString _ => "string"
  | JObject => "object"
  | JArray _ => "object"
  | JFunction _ => "function"
  end.

(** [Array.isArray(v)] *)
Definition isArray (v : JsValue) : bool :=
  match v with JArray _ => true | _ => false end.

(** The conversion to a boolean made by [if (v)] and [v && ...]. *)
Definition truthy (v : JsValue) : bool :=
  match v with
  | JUndefined | JNull => false
  | JBool b => b
  | JNumber NaN => false
  | JNumber (Num q) => negb (Qeq_bool q 0)
  | JNumber _ => true
  | JString s => negb (String.eqb s "")
  | JObject | JArray _ | JFunction _ => true
  end.

(** [typeof v === 'number' && v >= 1] *)
Definition number_ge_1 (v : JsValue) : bool :=
  match v with
  | JNumber n => num_ge n (Num 1)
  | _ => false
  end.
End Values.

Arguments JsValue : clear implicits.

(** ** Errors, handlers and the executor *)

Inductive ErrorClass := ClsError | ClsTypeError.

(** A task is a promise; promises are identified by their allocation
    number. *)
Abbreviation TaskRef := nat.

Section Executor.
Context {T R E : Type}.

(** What [validateInputs] throws.  The message of the second one
    interpolates the received value and its [typeof], the last two the
    [typeof] of the received value. *)
Inductive ValidationFault :=
  | HandlerNotFunction
  | ConcurrencyInvalid (received : JsValue T unit) (ty : string)
  | ItemsNotArray (ty : string)
  | ErrorHandlerNotFunction (ty : string).

Definition fault_class (f : ValidationFault) : ErrorClass :=
  match f with
  | HandlerNotFunction => ClsError
  | ConcurrencyInvalid _ _ => ClsTypeError
  | ItemsNotArray _ => ClsTypeError
  | ErrorHandlerNotFunction _ => ClsError
  end.

(** The values that are thrown during a run: whatever user code raises,
    the errors of [validateInputs], and the [TypeError] of the run time
    when a value that is not a function is called or when [entries] is
    not a method of [this.items]. *)
Inductive Thrown :=
  | Raised (e : E)
  | InvalidConfig (f : ValidationFault)
  | NotAFunction
  | NoEntriesMethod.

(** How a promise ends. *)
Inductive Settlement :=
  | Fulfilled
  | Rejected (e : Thrown).

(** The promise returned by the [async] function [createTaskFor]
    settles with what the handler returns or with what it raises,
    whether the handler is synchronous or returns a promise.  A handler
    is given by the settlement of each of its calls; the moment of the
    settlement is left to the events of the run, and a call that never
    settles is one whose event never comes. *)
Inductive Outcome :=
  | Resolves (r : R)
  | Rejects (e : Thrown).

Definition ProcessHandler : Type := T → nat → Outcome.

(** A call of the error handler returns a value that is not a promise,
    raises, or returns a promise that settles later. *)
Inductive Completion :=
  | Returns
  | Throws (e : Thrown)
  | ReturnsPromise (s : Settlement).

Definition ErrorHandler : Type := Thrown → T → Completion.

(** Modelled from the spec: [PromisePoolError.createFrom(error, item)]
    of [promise-pool-error.ts], "a record pairing a raised failure with
    the item that caused it". *)
Record PromisePoolError := createFrom { raw : Thrown; item : T }.

Record PromisePoolExecutor := {
  items : JsValue T unit;
  concurrency : JsValue T unit;
  tasks : list TaskRef;
  results : list R;
  handler : JsValue T ProcessHandler;
  errorHandler : JsValue T ErrorHandler;
  errors : list PromisePoolError;
}.

Record ReturnValue := {
  rv_results : list R;
  rv_errors : list PromisePoolError;
}.

(** [constructor ()]: the default handler [() => {}] resolves with
    [undefined], a value of the result type given as [undef]. *)
Definition new (undef : R) : PromisePoolExecutor :=
  {| tasks := []; items := JArray []; errors := []; results := [];
     concurrency := JNumber (Num 10);
     handler := JFunction (λ _ _, Resolves undef);
     errorHandler := JUndefined |}.

(** The setters assign one field and return [this]. *)
Definition withConcurrency (c : JsValue T unit) (ex : PromisePoolExecutor) :=
  {| items := items ex; concurrency := c; tasks := tasks ex;
     results := results ex; handler := handler ex;
     errorHandler := errorHandler ex; errors := errors ex |}.

Definition for_ (xs : JsValue T unit) (ex : PromisePoolExecutor) :=
  {| items := xs; concurrency := concurrency ex; tasks := tasks ex;
     results := results ex; handler := handler ex;
     errorHandler := errorHandler ex; errors := errors ex |}.

Definition withHandler (action : JsValue T ProcessHandler)
    (ex : PromisePoolExecutor) :=
  {| items := items ex; concurrency := concurrency ex; tasks := tasks ex;
     results := results ex; handler := action;
     errorHandler := errorHandler ex; errors := errors ex |}.

Definition handleError (h : JsValue T ErrorHandler)
    (ex : PromisePoolExecutor) :=
  {| items := items ex; concurrency := concurrency ex; tasks := tasks ex;
     results := results ex; handler := handler ex;
     errorHandler := h; errors := errors ex |}.

(** [activeCount ()] *)
Definition activeCount (ex : PromisePoolExecutor) : nat := length (tasks ex).

(** [hasReachedConcurrencyLimit ()]: [this.activeCount() >= this.concurrency].
    Behind [validateInputs] the concurrency is a number (lemma
    [validateInputs_number] below); the coercion that [>=] applies to
    other values is not modelled and the comparison is given as false. *)
Definition hasReachedConcurrencyLimit (ex : PromisePoolExecutor) : bool :=
  match concurrency ex with
  | JNumber c => num_ge (num_of_length (activeCount ex)) c
  | _ => false
  end.

(** [validateInputs ()]: the fault thrown, or [this]. *)
Definition validateInputs (ex : PromisePoolExecutor)
    : ValidationFault + PromisePoolExecutor :=
  if negb (String.eqb (typeof (handler ex)) "function") then
    inl HandlerNotFunction
  else if negb (number_ge_1 (concurrency ex)) then
    inl (ConcurrencyInvalid (concurrency ex) (typeof (concurrency ex)))
  else if negb (isArray (items ex)) then
    inl (ItemsNotArray (typeof (items ex)))
  else if truthy (errorHandler ex)
          && negb (String.eqb (typeof (errorHandler ex)) "function") then
    inl (ErrorHandlerNotFunction (typeof (errorHandler ex)))
  else
    inr ex.
End Executor.

Arguments ValidationFault : clear implicits.
Arguments Thrown : clear implicits.
Arguments Settlement : clear implicits.
Arguments Outcome : clear implicits.
Arguments Completion : clear implicits.
Arguments ProcessHandler : clear implicits.
Arguments ErrorHandler : clear implicits.
Arguments PromisePoolError : clear implicits.
Arguments PromisePoolExecutor : clear implicits.
Arguments ReturnValue : clear implicits.

(** ** The run: promises and the event loop

    JavaScript runs one job at a time, to completion.  The jobs of a run
    of the pool are:
    - [Start]: the call of [start ()], which validates and runs
      [process ()] up to its first [await];
    - [React t]: the promise of [createTaskFor] for the task [t] has
      settled and the reaction that [startProcessing] attached to it
      runs: [.then(...)] when it is fulfilled, after which the task is
      fulfilled by a later job; [.catch(...)] when it is rejected, which
      settles the task itself unless it returns the promise of the
      error handler;
    - [TaskSettles t]: the task [t], which followed a promise, settles
      with it;
    - [Resume]: the promise awaited by [start] has settled and [start]
      runs up to its next [await] or to its end.
    A promise made by [Promise.race] or [Promise.all] listens to the
    tasks it was made from and takes the settlement of the first task
    that decides it, in the order in which the tasks settle.  When the
    handlers' promises settle, and how many other jobs run before
    [start] resumes, is not in the hands of the pool: a run is a list
    of events, and the machine below accepts every order of them. *)

Section Run.
Context {T R E : Type}.

Local Abbreviation Thrown := (Thrown T E).
Local Abbreviation Settlement := (Settlement T E).
Local Abbreviation Outcome := (Outcome T R E).
Local Abbreviation Executor := (PromisePoolExecutor T R E).

(** The promise [task] of [startProcessing], which is the promise
    returned by [.catch(...)]:
    - [Running item o]: [createTaskFor(item, index)] was called and
      settles with [o]; the reactions, which captured [item], have not
      run and the task is pending;
    - [Following s]: a reaction has run and the task, still pending,
      follows a promise that settles with [s]: after the [then]
      reaction, the promise of [.then(...)], which that reaction has
      fulfilled (the task is fulfilled by the next job of the chain, not
      by the reaction itself); after the [catch] reaction, the promise
      that the error handler returned;
    - [Settled s]: the task is settled. *)
Inductive TaskState :=
  | Running (item : T) (o : Outcome)
  | Following (s : Settlement)
  | Settled (s : Settlement).

(** [Promise.race(this.tasks)]: the tasks it was called with, and the
    settlement of the first of them to settle. *)
Record Race := { contenders : list TaskRef; winner : option Settlement }.

(** [Promise.all(this.tasks)]: the tasks not fulfilled yet, and the
    first rejection; it is fulfilled when nothing is awaited any more. *)
Record All := { awaited : list TaskRef; rejection : option Thrown }.

(** Where [start ()] stands: not called; suspended in
    [await this.processingSlot()] of the iteration [index, item], with
    the entries the iterator has still to yield; suspended in
    [await this.drainActiveTasks()]; or settled. *)
Inductive Control :=
  | NotStarted
  | AwaitingSlot (index : nat) (item : T) (rest : list (nat * T)) (race : Race)
  | AwaitingDrain (all : All)
  | Finished (s : Settlement).

(** The executor, the task promises, the control point of [start],
    and three histories: the calls of the handler, the calls of the
    error handler, and the tasks in the order in which their reaction
    ran (the order of completion). *)
Record State := {
  this : Executor;
  heap : list TaskState;
  control : Control;
  handlerCalls : list (T * nat);
  errorHandlerCalls : list (Thrown * T);
  completed : list TaskRef;
}.

Definition init (ex : Executor) : State :=
  {| this := ex; heap := []; control := NotStarted;
     handlerCalls := []; errorHandlerCalls := []; completed := [] |}.

(** *** Array operations *)

(** [xs.entries()] *)
Definition entries (xs : list T) : list (nat * T) := imap (λ i x, (i, x)) xs.

(** [l.indexOf(t)]; [None] stands for [-1]. *)
Definition indexOf (t : TaskRef) (l : list TaskRef) : option nat :=
  fst <$> list_find (λ x, x = t) l.

(** [l.splice(start, 1)]; a start of [-1] counts from the end. *)
Definition splice1 (start : option nat) (l : list TaskRef) : list TaskRef :=
  match start with
  | Some i => delete i l
  | None => delete (length l - 1) l
  end.

(** *** Field updates *)

Definition set_tasks (ts : list TaskRef) (ex : Executor) : Executor :=
  {| items := items ex; concurrency := concurrency ex; tasks := ts;
     results := results ex; handler := handler ex;
     errorHandler := errorHandler ex; errors := errors ex |}.

Definition set_results (rs : list R) (ex : Executor) : Executor :=
  {| items := items ex; concurrency := concurrency ex; tasks := tasks ex;
     results := rs; handler := handler ex;
     errorHandler := errorHandler ex; errors := errors ex |}.

Definition set_errors (es : list (PromisePoolError T E)) (ex : Executor)
    : Executor :=
  {| items := items ex; concurrency := concurrency ex; tasks := tasks ex;
     results := results ex; handler := handler ex;
     errorHandler := errorHandler ex; errors := es |}.

Definition set_this (ex : Executor) (st : State) : State :=
  {| this := ex; heap := heap st; control := control st;
     handlerCalls := handlerCalls st;
     errorHandlerCalls := errorHandlerCalls st; completed := completed st |}.

Definition set_heap (h : list TaskState) (st : State) : State :=
  {| this := this st; heap := h; control := control st;
     handlerCalls := handlerCalls st;
     errorHandlerCalls := errorHandlerCalls st; completed := completed st |}.

Definition set_control (c : Control) (st : State) : State :=
  {| this := this st; heap := heap st; control := c;
     handlerCalls := handlerCalls st;
     errorHandlerCalls := errorHandlerCalls st; completed := completed st |}.

Definition log_handlerCall (item : T) (index : nat) (st : State) : State :=
  {| this := this st; heap := heap st; control := control st;
     handlerCalls := handlerCalls st ++ [(item, index)];
     errorHandlerCalls := errorHandlerCalls st; completed := completed st |}.

Definition log_errorHandlerCall (e : Thrown) (item : T) (st : State) : State :=
  {| this := this st; heap := heap st; control := control st;
     handlerCalls := handlerCalls st;
     errorHandlerCalls := errorHandlerCalls st ++ [(e, item)];
     completed := completed st |}.

Definition log_completed (t : TaskRef) (st : State) : State :=
  {| this := this st; heap := heap st; control := control st;
     handlerCalls := handlerCalls st;
     errorHandlerCalls := errorHandlerCalls st;
     completed := completed st ++ [t] |}.

(** *** Settling a task *)

Definition race_notify (t : TaskRef) (s : Settlement) (r : Race) : Race :=
  match winner r with
  | Some _ => r
  | None =>
      if decide (t ∈ contenders r)
      then {| contenders := contenders r; winner := Some s |}
      else r
  end.

Definition all_notify (t : TaskRef) (s : Settlement) (a : All) : All :=
  match rejection a with
  | Some _ => a
  | None =>
      if decide (t ∈ awaited a) then
        match s with
        | Fulfilled =>
            {| awaited := filter (λ x, x ≠ t) (awaited a); rejection := None |}
        | Rejected e => {| awaited := awaited a; rejection := Some e |}
        end
      else a
  end.

(** The promises that observe the task are notified. *)
Definition notify (t : TaskRef) (s : Settlement) (c : Control) : Control :=
  match c with
  | AwaitingSlot index item rest race =>
      AwaitingSlot index item rest (race_notify t s race)
  | AwaitingDrain all => AwaitingDrain (all_notify t s all)
  | NotStarted | Finished _ => c
  end.

Definition settle (t : TaskRef) (s : Settlement) (st : State) : State :=
  set_control (notify t s (control st))
    (set_heap (<[t := Settled s]> (heap st)) st).

(** *** The methods *)

(** [this.handler(item, index)] inside the [async] function
    [createTaskFor]: calling a value that is not a function raises. *)
Definition createTaskFor (item : T) (index : nat) (ex : Executor) : Outcome :=
  match handler ex with
  | JFunction f => f item index
  | _ => Rejects NotAFunction
  end.

(** [this.errorHandler(error, item)] *)
Definition call_errorHandler (e : Thrown) (item : T) (ex : Executor)
    : Completion T E :=
  match errorHandler ex with
  | JFunction g => g e item
  | _ => Throws NotAFunction
  end.

(** [this.tasks.splice(this.tasks.indexOf(task), 1)] *)
Definition remove_task (t : TaskRef) (st : State) : State :=
  set_this
    (set_tasks (splice1 (indexOf t (tasks (this st))) (tasks (this st)))
       (this st))
    st.

(** [startProcessing (item, index)]: the handler is called, the task
    is allocated and pushed on [this.tasks]. *)
Definition startProcessing (item : T) (index : nat) (st : State) : State :=
  let task := length (heap st) in
  let o := createTaskFor item index (this st) in
  set_this (set_tasks (tasks (this st) ++ [task]) (this st))
    (set_heap (heap st ++ [Running item o])
       (log_handlerCall item index st)).

(** The reaction [.then(result => ...)] of the task [t].  It fulfils the
    promise of [.then(...)]; the task, which is the promise of
    [.catch(...)], follows it and is fulfilled by a job of its own. *)
Definition onFulfilled (t : TaskRef) (r : R) (st : State) : State :=
  let st1 := set_this (set_results (results (this st) ++ [r]) (this st)) st in
  let st2 := log_completed t (remove_task t st1) in
  set_heap (<[t := Following Fulfilled]> (heap st2)) st2.

(** The reaction [.catch(error => ...)] of the task [t].  What it
    returns or raises settles the task in the same job, unless it
    returns the promise of the error handler. *)
Definition onRejected (t : TaskRef) (e : Thrown) (item : T) (st : State)
    : State :=
  let st1 := log_completed t (remove_task t st) in
  if truthy (errorHandler (this st1)) then
    let st2 := log_errorHandlerCall e item st1 in
    match call_errorHandler e item (this st1) with
    | Returns => settle t Fulfilled st2
    | Throws e' => settle t (Rejected e') st2
    | ReturnsPromise s => set_heap (<[t := Following s]> (heap st2)) st2
    end
  else
    let st2 :=
      set_this
        (set_errors (errors (this st1) ++ [createFrom e item]) (this st1))
        st1 in
    settle t Fulfilled st2.

(** [waitForTaskToFinish ()]: the promise [Promise.race(this.tasks)],
    which listens to the tasks active at this moment. *)
Definition waitForTaskToFinish (st : State) : Race :=
  {| contenders := tasks (this st); winner := None |}.

(** [await this.processingSlot()] in the iteration [index, item]. *)
Definition processingSlot (index : nat) (item : T) (rest : list (nat * T))
    (st : State) : State :=
  set_control (AwaitingSlot index item rest (waitForTaskToFinish st)) st.

(** [drainActiveTasks ()]: the promise [Promise.all(this.tasks)]. *)
Definition drainActiveTasks (st : State) : All :=
  {| awaited := tasks (this st); rejection := None |}.

(** [await this.drained()] *)
Definition drained (st : State) : State :=
  set_control (AwaitingDrain (drainActiveTasks st)) st.

(** The loop of [process ()] over the entries still to come, up to the
    next [await]. *)
Fixpoint process_from (es : list (nat * T)) (st : State) : State :=
  match es with
  | [] => drained st
  | (index, item) :: rest =>
      if hasReachedConcurrencyLimit (this st)
      then processingSlot index item rest st
      else process_from rest (startProcessing item index st)
  end.

(** [process ()] *)
Definition process (st : State) : State :=
  match items (this st) with
  | JArray xs => process_from (entries xs) st
  | _ => set_control (Finished (Rejected NoEntriesMethod)) st
  end.

(** [start ()]: [this.validateInputs().process()] *)
Definition start (st : State) : State :=
  match validateInputs (this st) with
  | inl f => set_control (Finished (Rejected (InvalidConfig f))) st
  | inr ex => process (set_this ex st)
  end.

(** [start] continues after its [await]. *)
Definition resume (st : State) : option State :=
  match control st with
  | AwaitingSlot index item rest race =>
      match winner race with
      | Some Fulfilled =>
          Some (process_from rest (startProcessing item index st))
      | Some (Rejected e) => Some (set_control (Finished (Rejected e)) st)
      | None => None
      end
  | AwaitingDrain all =>
      match rejection all, awaited all with
      | Some e, _ => Some (set_control (Finished (Rejected e)) st)
      | None, [] => Some (set_control (Finished Fulfilled) st)
      | None, _ :: _ => None
      end
  | NotStarted | Finished _ => None
  end.

(** *** Events

    The jobs of the event loop.  [Start] is the call of [start ()] up
    to its first [await].  [React t] is the reaction of the task [t] to
    the promise of [createTaskFor]: the [then] reaction when it is
    fulfilled, the [catch] reaction when it is rejected.
    [TaskSettles t] is the job that settles a task following a promise,
    and with it the [Promise.race] or [Promise.all] that listens to the
    task.  [Resume] continues [start] after the promise it awaits has
    settled. *)

Inductive Event :=
  | Start
  | React (t : TaskRef)
  | TaskSettles (t : TaskRef)
  | Resume.

(** One job; [None] when the event cannot happen in the state. *)
Definition step (ev : Event) (st : State) : option State :=
  match ev with
  | Start =>
      match control st with
      | NotStarted => Some (start st)
      | _ => None
      end
  | React t =>
      match heap st !! t with
      | Some (Running item (Resolves r)) => Some (onFulfilled t r st)
      | Some (Running item (Rejects e)) => Some (onRejected t e item st)
      | _ => None
      end
  | TaskSettles t =>
      match heap st !! t with
      | Some (Following s) => Some (settle t s st)
      | _ => None
      end
  | Resume => resume st
  end.

Fixpoint run (evs : list Event) (st : State) : option State :=
  match evs with
  | [] => Some st
  | ev :: evs => st' ← step ev st; run evs st'
  end.

(** What the caller of [start ()] receives once it is fulfilled: the
    object [{ results: this.results, errors: this.errors }], which
    shares the two arrays with the executor. *)
Definition returned (st : State) : option (ReturnValue T R E) :=
  match control st with
  | Finished Fulfilled =>
      Some {| rv_results := results (this st); rv_errors := errors (this st) |}
  | _ => None
  end.

(** The rejection of [start ()]. *)
Definition rejected (st : State) : option Thrown :=
  match control st with
  | Finished (Rejected e) => Some e
  | _ => None
  end.
End Run.

(** ** Vocabulary of the properties *)

Section Vocabulary.
Context {T R E : Type}.

Local Abbreviation Thrown := (Thrown T E).
Local Abbreviation Executor := (PromisePoolExecutor T R E).
Local Abbreviation State := (@State T R E).

(** The items of a validated executor. *)
Definition the_items (ex : Executor) : list T :=
  match items ex with JArray xs => xs | _ => [] end.

(** Two executors with the same configuration. *)
Definition same_config (ex ex' : Executor) : Prop :=
  items ex = items ex' ∧ concurrency ex = concurrency ex'
  ∧ handler ex = handler ex' ∧ errorHandler ex = errorHandler ex'.

(** An executor as the constructor and the setters leave it: a run is
    the [start ()] of such an executor. *)
Definition unused (ex : Executor) : Prop :=
  tasks ex = [] ∧ results ex = [] ∧ errors ex = [].

(** The test of [hasReachedConcurrencyLimit] at an active count of [n]. *)
Definition limit_reached (ex : Executor) (n : nat) : bool :=
  match concurrency ex with
  | JNumber c => num_ge (num_of_length n) c
  | _ => false
  end.

(** The count [n] was reached by admissions made below the limit. *)
Definition started_below_limit (ex : Executor) (n : nat) : Prop :=
  n = 0 ∨ limit_reached ex (n - 1) = false.

(** The error handler is configured: the test [if (this.errorHandler)]. *)
Definition has_errorHandler (ex : Executor) : bool := truthy (errorHandler ex).

(** What the task of the item at index [t] contributes. *)
Definition success_of (ex : Executor) (t : nat) : option R :=
  x ← the_items ex !! t;
  match createTaskFor x t ex with Resolves r => Some r | Rejects _ => None end.

Definition failure_of (ex : Executor) (t : nat) : option (Thrown * T) :=
  x ← the_items ex !! t;
  match createTaskFor x t ex with
  | Resolves _ => None
  | Rejects e => Some (e, x)
  end.

Definition pool_error (p : Thrown * T) : PromisePoolError T E :=
  createFrom p.1 p.2.

(** A task that is not settled. *)
Definition pending (st : State) (t : TaskRef) : Prop :=
  ∃ ts, heap st !! t = Some ts ∧ ∀ s, ts ≠ Settled s.

(** The state is consistent with a run of the configuration [cfg]. *)
Record Wf (cfg : Executor) (st : State) : Prop := {
  wf_config : same_config (this st) cfg;
  wf_nodup : NoDup (tasks (this st));
  wf_tasks : ∀ t, t ∈ tasks (this st) ↔
      ∃ x o, heap st !! t = Some (Running x o);
  wf_running : ∀ t x o, heap st !! t = Some (Running x o) →
      the_items cfg !! t = Some x ∧ o = createTaskFor x t cfg;
  wf_calls : handlerCalls st =
    prod_swap <$> take (length (heap st)) (entries (the_items cfg));
  wf_started : length (heap st) ≤ length (the_items cfg);
  wf_idle : control st = NotStarted → heap st = [];
  wf_position : ∀ index x rest race,
      control st = AwaitingSlot index x rest race →
      drop (length (heap st)) (entries (the_items cfg)) = (index, x) :: rest;
  wf_completed_nodup : NoDup (completed st);
  wf_completed : ∀ t, t ∈ completed st ↔
      t < length (heap st) ∧ t ∉ tasks (this st);
  wf_results : results (this st) = omap (success_of cfg) (completed st);
  wf_errors : errors (this st) =
      if has_errorHandler cfg then []
      else pool_error <$> omap (failure_of cfg) (completed st);
  wf_errorHandlerCalls : errorHandlerCalls st =
      if has_errorHandler cfg then omap (failure_of cfg) (completed st)
      else [];
}.

(** The control point of [start] is consistent with the tasks. *)
Definition Ctl (cfg : Executor) (st : State) : Prop :=
  started_below_limit cfg (length (tasks (this st))) ∧
  match control st with
  | NotStarted => heap st = []
  | AwaitingSlot index x rest race =>
      tasks (this st) ⊆ contenders race
      ∧ (tasks (this st) = contenders race
         ∨ length (tasks (this st)) < length (contenders race))
      ∧ (is_Some (winner race) →
         length (tasks (this st)) < length (contenders race))
      ∧ (winner race = None → ∀ t, t ∈ contenders race → pending st t)
      ∧ limit_reached cfg (length (contenders race)) = true
      ∧ started_below_limit cfg (length (contenders race))
  | AwaitingDrain all =>
      length (heap st) = length (the_items cfg)
      ∧ (rejection all = None →
         tasks (this st) ⊆ awaited all ∧ ∀ t, t ∈ awaited all → pending st t)
  | Finished Fulfilled =>
      length (heap st) = length (the_items cfg) ∧ tasks (this st) = []
  | Finished (Rejected _) => True
  end.

(** The number of jobs a state can still run: three for each item not
    admitted (its admission is counted with the reaction and the
    settlement of the error handler it may lead to), two for a running
    task, one for a task that waits for the error handler, and the jobs
    of [start] itself. *)
Definition task_weight (ts : @TaskState T R E) : nat :=
  match ts with Running _ _ => 2 | Following _ => 1 | Settled _ => 0 end.

Definition control_weight (c : @Control T E) : nat :=
  match c with
  | NotStarted => 3
  | AwaitingSlot _ _ _ _ => 2
  | AwaitingDrain _ => 1
  | Finished _ => 0
  end.

Definition jobs_left (cfg : Executor) (st : State) : nat :=
  3 * (length (the_items cfg) - length (heap st))
  + sum_list_with task_weight (heap st)
  + control_weight (control st).

(** The active count [n] does not exceed the ceiling: [concurrency >= n]. *)
Definition within_ceiling (ex : Executor) (n : nat) : bool :=
  match concurrency ex with
  | JNumber c => num_ge c (num_of_length n)
  | _ => false
  end.

(** The concurrency is a number whose value is an integer or infinite. *)
Definition integral_ceiling (ex : Executor) : Prop :=
  ∀ q, concurrency ex = JNumber (Num q) → is_integer q.

(** [start] is suspended and the promise it awaits is still pending. *)
Definition awaiting (st : State) : Prop :=
  match control st with
  | AwaitingSlot _ _ _ race => winner race = None
  | AwaitingDrain all => rejection all = None
  | NotStarted | Finished _ => False
  end.

(** The task [t] is one of those the awaited promise still listens to. *)
Definition observed (st : State) (t : TaskRef) : Prop :=
  match control st with
  | AwaitingSlot _ _ _ race => winner race = None ∧ t ∈ contenders race
  | AwaitingDrain all => rejection all = None ∧ t ∈ awaited all
  | NotStarted | Finished _ => False
  end.

(** The promise awaited by [start] is rejected with [e], or [start] is. *)
Definition doomed (e : Thrown) (st : State) : Prop :=
  match control st with
  | AwaitingSlot _ _ _ race => winner race = Some (Rejected e)
  | AwaitingDrain all => rejection all = Some e
  | Finished s => s = Rejected e
  | NotStarted => False
  end.

(** [start ()] is rejected with [e], now or at its next job. *)
Definition rejects_with (e : Thrown) (st : State) : Prop :=
  rejected st = Some e
  ∨ ∃ st', step Resume st = Some st' ∧ rejected st' = Some e.

(** The conditions under which [validateInputs] throws. *)
Definition invalid (ex : Executor) : Prop :=
  typeof (handler ex) ≠ "function"%string
  ∨ number_ge_1 (concurrency ex) = false
  ∨ isArray (items ex) = false
  ∨ (has_errorHandler ex = true
     ∧ typeof (errorHandler ex) ≠ "function"%string).

Definition valid (ex : Executor) : Prop :=
  typeof (handler ex) = "function"%string
  ∧ number_ge_1 (concurrency ex) = true
  ∧ isArray (items ex) = true
  ∧ (has_errorHandler ex = true →
     typeof (errorHandler ex) = "function"%string).

(** The entries [es] started one after the other, as the loop of
    [process] does while the limit is not reached. *)
Definition start_all (es : list (nat * T)) (st : State) : State :=
  foldl (λ s e, startProcessing e.2 e.1 s) st es.

(** The concurrency is the number 1. *)
Definition unit_ceiling (ex : Executor) : Prop :=
  ∃ q, concurrency ex = JNumber (Num q) ∧ (q == 1)%Q.

(** The tasks have completed one after the other, in the order of
    their admission, and only the last one admitted can be active. *)
Definition sequential (st : State) : Prop :=
  completed st = seq 0 (length (heap st) - length (tasks (this st)))
  ∧ ∀ t, t ∈ tasks (this st) → S t = length (heap st).

(** An error handler that never raises: each call returns, or returns a
    promise that is fulfilled. *)
Definition gentle (ex : Executor) : Prop :=
  ∀ g e x, errorHandler ex = JFunction g →
    g e x = Returns ∨ g e x = ReturnsPromise Fulfilled.

(** No task is rejected or is going to be. *)
Definition Calm (st : State) : Prop :=
  (∀ t ts, heap st !! t = Some ts →
     match ts with
     | Running _ _ | Following Fulfilled | Settled Fulfilled => True
     | Following (Rejected _) | Settled (Rejected _) => False
     end) ∧
  match control st with
  | AwaitingSlot _ _ _ race => ∀ e, winner race ≠ Some (Rejected e)
  | AwaitingDrain all => rejection all = None
  | Finished (Rejected _) => False
  | NotStarted | Finished Fulfilled => True
  end.

(** What the task of the item at index [t] contributes when the handler
    is the function [f]: the value or the error of the call [f x t]. *)
Definition result_of (f : ProcessHandler T R E) (xs : list T) (t : nat)
    : option R :=
  x ← xs !! t;
  match f x t with Resolves r => Some r | Rejects _ => None end.

Definition error_of (f : ProcessHandler T R E) (xs : list T) (t : nat)
    : option (Thrown * T) :=
  x ← xs !! t;
  match f x t with Resolves _ => None | Rejects e => Some (e, x) end.

(** The task after the [catch] reaction has returned what the call of
    the error handler completed with. *)
Definition task_after (c : Completion T E) : @TaskState T R E :=
  match c with
  | Returns => Settled Fulfilled
  | Throws e => Settled (Rejected e)
  | ReturnsPromise s => Following s
  end.
End Vocabulary.

(** A positive integer, as a value. *)
Definition positive_integer {T F} (v : JsValue T F) : Prop :=
  ∃ z : Z, (1 ≤ z)%Z ∧ ∃ q, v = JNumber (Num q) ∧ (q == inject_Z z)%Q.

(** ** Example pools

    Items are strings; the handler appends an exclamation mark and
    fails on ["b"]. *)

Definition demo_handler : ProcessHandler string string string :=
  λ x _, if String.eqb x "b" then Rejects (Raised "boom")
         else Resolves (x +:+ "!").

(** An error handler that raises, one that returns, and one that is
    asynchronous and rejects. *)
Definition throwing_errorHandler : ErrorHandler string string :=
  λ _ _, Throws (Raised "handler failed").

Definition quiet_errorHandler : ErrorHandler string string :=
  λ _ _, Returns.

Definition pool (c : JsValue string unit) (xs : JsValue string unit)
    (h : JsValue string (ProcessHandler string string string))
    (g : JsValue string (ErrorHandler string string))
    : PromisePoolExecutor string string string :=
  handleError g (withHandler h (for_ xs (withConcurrency c (new "")))).

(** [items = ["a", "b"]], [concurrency = 10], no error handler. *)
Definition pool_ab :=
  pool (JNumber (Num 10)) (JArray ["a"; "b"]) (JFunction demo_handler)
    JUndefined.

(** [items = ["a", "b", "c"]], [concurrency = 2], with an error handler. *)
Definition pool_abc_throwing :=
  pool (JNumber (Num 2)) (JArray ["a"; "b"; "c"]) (JFunction demo_handler)
    (JFunction throwing_errorHandler).

Definition pool_abc_quiet :=
  pool (JNumber (Num 2)) (JArray ["a"; "b"; "c"]) (JFunction demo_handler)
    (JFunction quiet_errorHandler).

(** [concurrency = 1.5] *)
Definition pool_fraction :=
  pool (JNumber (Num (3 # 2))) (JArray ["a"; "b"; "c"])
    (JFunction demo_handler) JUndefined.

(** [items = ["a", "c"]], [concurrency = 10], no error handler. *)
Definition pool_ac :=
  pool (JNumber (Num 10)) (JArray ["a"; "c"]) (JFunction demo_handler)
    JUndefined.

(** [items = ["a", "b", "c"]], [concurrency = 1], no error handler. *)
Definition pool_abc_one :=
  pool (JNumber (Num 1)) (JArray ["a"; "b"; "c"]) (JFunction demo_handler)
    JUndefined.

(** The executor as the constructor leaves it. *)
Definition pool_default : PromisePoolExecutor string string string := new "".

(** [items = ["b", "a", "c"]], [concurrency = 2], with an error handler
    that raises. *)
Definition pool_bac_throwing :=
  pool (JNumber (Num 2)) (JArray ["b"; "a"; "c"]) (JFunction demo_handler)
    (JFunction throwing_errorHandler).

(** [concurrency = 0] *)
Definition pool_zero :=
  pool (JNumber (Num 0)) (JArray ["a"; "b"]) (JFunction demo_handler)
    JUndefined.

(** [concurrency = -Infinity] *)
Definition pool_negative_infinity :=
  pool (JNumber NegInfinity) (JArray ["a"; "b"]) (JFunction demo_handler)
    JUndefined.

(** ** Arrays *)

Lemma indexOf_cons (t a : TaskRef) (l : list TaskRef) :
  indexOf t (a :: l) = if decide (a = t) then Some 0 else S <$> indexOf t l.
Proof.
  unfold indexOf. simpl. destruct (decide (a = t)); [done|].
  by destruct (list_find _ l) as [[i y]|].
Qed.

Lemma indexOf_elem_of (t : TaskRef) (l : list TaskRef) :
  t ∈ l → is_Some (indexOf t l).
Proof.
  induction l as [|a l IH]; intros Hin.
  - by apply elem_of_nil in Hin.
  - rewrite indexOf_cons. destruct (decide (a = t)); [by eexists|].
    apply elem_of_cons in Hin as [->|Hin]; [done|].
    destruct (IH Hin) as [i ->]. by eexists.
Qed.

Lemma filter_ne_notin (t : TaskRef) (l : list TaskRef) :
  t ∉ l → filter (λ x, x ≠ t) l = l.
Proof.
  induction l as [|a l IH]; intros Hin; [done|].
  apply not_elem_of_cons in Hin as [Hne Hin].
  rewrite filter_cons_True by done. by rewrite IH.
Qed.

(** Removing a task that occurs once in the array removes exactly it. *)
Lemma splice1_indexOf (t : TaskRef) (l : list TaskRef) :
  NoDup l → t ∈ l → splice1 (indexOf t l) l = filter (λ x, x ≠ t) l.
Proof.
  induction l as [|a l IH]; intros Hnd Hin.
  - by apply elem_of_nil in Hin.
  - apply NoDup_cons in Hnd as [Ha Hnd]. rewrite indexOf_cons.
    destruct (decide (a = t)) as [->|Hne]; simpl.
    + rewrite filter_cons_False by (intros ?; done).
      by rewrite filter_ne_notin.
    + apply elem_of_cons in Hin as [->|Hin]; [done|].
      rewrite filter_cons_True by done.
      specialize (IH Hnd Hin).
      destruct (indexOf_elem_of t l Hin) as [i Hi].
      rewrite Hi in IH |- *. simpl in *. by rewrite IH.
Qed.

Lemma entries_lookup {T} (xs : list T) (i : nat) :
  entries xs !! i = (λ x, (i, x)) <$> xs !! i.
Proof. unfold entries. by rewrite list_lookup_imap. Qed.

Lemma length_entries {T} (xs : list T) : length (entries xs) = length xs.
Proof. unfold entries. by rewrite length_imap. Qed.

(** The head of what is left of [entries] is the next index. *)
Lemma drop_entries {T} (xs : list T) (n i : nat) (x : T) rest :
  drop n (entries xs) = (i, x) :: rest →
  i = n ∧ xs !! n = Some x ∧ drop (S n) (entries xs) = rest.
Proof.
  intros Hd.
  assert (entries xs !! n = Some (i, x)) as Hl.
  { rewrite <- (Nat.add_0_r n), <- lookup_drop, Hd. done. }
  rewrite entries_lookup in Hl.
  destruct (xs !! n) as [y|] eqn:Hy; simplify_eq/=.
  split_and!; [done..|].
  erewrite drop_S in Hd; [|by rewrite entries_lookup, Hy]. by simplify_eq.
Qed.

(** ** Consistency of the reachable states *)

Section Consistency.
Context {T R E : Type}.
Implicit Types (cfg ex : PromisePoolExecutor T R E) (st : @State T R E).
Implicit Types (t : TaskRef).

Lemma validateInputs_inr ex ex' : validateInputs ex = inr ex' → ex' = ex.
Proof. unfold validateInputs. repeat case_match; congruence. Qed.

(** Behind [validateInputs] the handler is a function, the concurrency a
    number that is at least 1 and the items an array. *)
Lemma validateInputs_number ex ex' :
  validateInputs ex = inr ex' →
  (∃ f, handler ex = JFunction f)
  ∧ (∃ c, concurrency ex = JNumber c ∧ num_ge c (Num 1) = true)
  ∧ (∃ xs, items ex = JArray xs)
  ∧ (has_errorHandler ex = true → ∃ g, errorHandler ex = JFunction g).
Proof.
  unfold validateInputs, has_errorHandler. intros Hv.
  destruct (handler ex) eqn:Hh; simpl in Hv; try discriminate.
  destruct (concurrency ex) as [| | |c| | | |] eqn:Hc; simpl in Hv;
    try discriminate.
  destruct (num_ge c (Num 1)) eqn:Hge; simpl in Hv; try discriminate.
  destruct (items ex) eqn:Hi; simpl in Hv; try discriminate.
  split_and!; [by eexists..|].
  intros Ht. rewrite Ht in Hv. simpl in Hv.
  destruct (errorHandler ex); simpl in Hv; try discriminate. by eexists.
Qed.

Lemma same_config_refl ex : same_config ex ex.
Proof. by repeat split. Qed.

Lemma hasReachedConcurrencyLimit_config ex cfg :
  same_config ex cfg →
  hasReachedConcurrencyLimit ex = limit_reached cfg (length (tasks ex)).
Proof.
  intros (_ & Hc & _).
  unfold hasReachedConcurrencyLimit, limit_reached, activeCount.
  by rewrite Hc.
Qed.

Lemma createTaskFor_config ex cfg x i :
  same_config ex cfg → createTaskFor x i ex = createTaskFor x i cfg.
Proof. intros (_ & _ & Hh & _). unfold createTaskFor. by rewrite Hh. Qed.

Lemma Wf_init cfg : unused cfg → Wf cfg (init cfg).
Proof.
  intros (Ht & Hr & He). split; simpl.
  - apply same_config_refl.
  - rewrite Ht. constructor.
  - intros t. rewrite Ht. split; [by intros ?%elem_of_nil|].
    by intros (? & ? & ?).
  - done.
  - done.
  - lia.
  - done.
  - done.
  - constructor.
  - intros t. split; [by intros ?%elem_of_nil|lia].
  - done.
  - rewrite He. by destruct (has_errorHandler cfg).
  - by destruct (has_errorHandler cfg).
Qed.

Lemma Wf_set_control cfg st c :
  Wf cfg st → c ≠ NotStarted →
  (∀ index x rest race, c = AwaitingSlot index x rest race →
     drop (length (heap st)) (entries (the_items cfg)) = (index, x) :: rest) →
  Wf cfg (set_control c st).
Proof. intros [] Hc Hpos. split; try done. Qed.

Lemma Wf_task_lt cfg st t :
  Wf cfg st → t ∈ tasks (this st) → t < length (heap st).
Proof.
  intros Hwf Hin. apply (wf_tasks _ _ Hwf) in Hin as (x & o & Hl).
  by apply lookup_lt_Some in Hl.
Qed.

Lemma Wf_startProcessing cfg st index x :
  Wf cfg st →
  entries (the_items cfg) !! length (heap st) = Some (index, x) →
  control st ≠ NotStarted →
  (∀ i y rest race, control st = AwaitingSlot i y rest race →
     drop (S (length (heap st))) (entries (the_items cfg)) = (i, y) :: rest) →
  Wf cfg (startProcessing x index st).
Proof.
  intros Hwf Hent Hctl Hpos.
  assert (index = length (heap st) ∧ the_items cfg !! index = Some x)
    as [-> Hx].
  { rewrite entries_lookup in Hent.
    destruct (_ !! _) eqn:?; simplify_eq/=. done. }
  assert (∀ t, t ∈ tasks (this st) → t < length (heap st)) as Hlt.
  { intros t. by apply Wf_task_lt with cfg. }
  destruct Hwf. split; simpl.
  - done.
  - apply NoDup_app. split_and!; [done| |apply NoDup_singleton].
    intros t Hin ->%list_elem_of_singleton. apply Hlt in Hin. lia.
  - intros t. rewrite elem_of_app, list_elem_of_singleton, wf_tasks0. split.
    + intros [(y & o & Hl)| ->].
      * exists y, o. by apply lookup_app_l_Some.
      * eexists _, _. by rewrite lookup_app_r, Nat.sub_diag.
    + intros (y & o & Hl). apply lookup_app_Some in Hl as [Hl|[Hge Hl]].
      * left. eauto.
      * right. apply list_lookup_singleton_Some in Hl as [? _]. lia.
  - intros t y o Hl. apply lookup_app_Some in Hl as [Hl|[Hge Hl]]; [eauto|].
    apply list_lookup_singleton_Some in Hl as [Hz Heq].
    assert (t = length (heap st)) as -> by lia. simplify_eq.
    split; [done|]. by apply createTaskFor_config.
  - rewrite length_app. simpl. rewrite Nat.add_1_r.
    erewrite take_S_r by done. rewrite fmap_app. by rewrite wf_calls0.
  - rewrite length_app. simpl. apply lookup_lt_Some in Hx. lia.
  - done.
  - rewrite length_app. simpl. rewrite Nat.add_1_r. done.
  - done.
  - intros t. rewrite wf_completed0, length_app, elem_of_app,
      list_elem_of_singleton. simpl. split.
    + intros [? ?]. split; [lia|]. intros [?| ->]; [done|lia].
    + intros [? Hn]. split; [|tauto]. destruct (decide (t = length (heap st)));
        [tauto|lia].
  - done.
  - done.
  - done.
Qed.

Lemma notify_NotStarted t s (c : @Control T E) :
  notify t s c = NotStarted → c = NotStarted.
Proof. by destruct c. Qed.

Lemma notify_AwaitingSlot t s (c : @Control T E) index x rest race' :
  notify t s c = AwaitingSlot index x rest race' →
  ∃ race, c = AwaitingSlot index x rest race.
Proof. destruct c; simpl; intros; simplify_eq. by eexists. Qed.

Lemma has_errorHandler_config ex cfg :
  same_config ex cfg → has_errorHandler ex = has_errorHandler cfg.
Proof. intros (_ & _ & _ & He). unfold has_errorHandler. by rewrite He. Qed.

Lemma success_of_running cfg st t x o :
  Wf cfg st → heap st !! t = Some (Running x o) →
  success_of cfg t = match o with Resolves r => Some r | Rejects _ => None end
  ∧ failure_of cfg t =
      match o with Resolves _ => None | Rejects e => Some (e, x) end.
Proof.
  intros Hwf Hl. destruct (wf_running _ _ Hwf _ _ _ Hl) as [Hx ->].
  unfold success_of, failure_of. by rewrite Hx.
Qed.

(** The reaction of a running task: the task leaves [this.tasks], is
    appended to the order of completion and contributes one entry. *)
Lemma Wf_complete cfg st st' t x o ts' :
  Wf cfg st →
  heap st !! t = Some (Running x o) →
  (∀ y o', ts' ≠ Running y o') →
  same_config (this st') (this st) →
  tasks (this st') = splice1 (indexOf t (tasks (this st))) (tasks (this st)) →
  heap st' = <[t := ts']> (heap st) →
  handlerCalls st' = handlerCalls st →
  completed st' = completed st ++ [t] →
  (control st' = control st ∨ ∃ s, control st' = notify t s (control st)) →
  results (this st') = results (this st) ++
    match o with Resolves r => [r] | Rejects _ => [] end →
  errors (this st') = errors (this st) ++
    match o with
    | Resolves _ => []
    | Rejects e => if has_errorHandler (this st) then [] else [createFrom e x]
    end →
  errorHandlerCalls st' = errorHandlerCalls st ++
    match o with
    | Resolves _ => []
    | Rejects e => if has_errorHandler (this st) then [(e, x)] else []
    end →
  Wf cfg st'.
Proof.
  intros Hwf Hl Hts Hcfg Htasks Hheap Hcalls Hcompl Hctl Hres Herr Hehc.
  assert (t ∈ tasks (this st)) as Hin by (apply (wf_tasks _ _ Hwf); eauto).
  assert (t < length (heap st)) as Hlt by by apply lookup_lt_Some in Hl.
  rewrite splice1_indexOf in Htasks by (done || apply Hwf).
  destruct (success_of_running _ _ _ _ _ Hwf Hl) as [Hsucc Hfail].
  assert (has_errorHandler (this st) = has_errorHandler cfg) as Heh.
  { apply has_errorHandler_config, Hwf. }
  destruct Hwf. split.
  - destruct Hcfg as (? & ? & ? & ?), wf_config0 as (? & ? & ? & ?).
    repeat split; congruence.
  - rewrite Htasks. by apply NoDup_filter.
  - intros t'. rewrite Htasks, Hheap, list_elem_of_filter, wf_tasks0.
    destruct (decide (t' = t)) as [->|Hne].
    + rewrite list_lookup_insert_eq by done. split; [tauto|].
      intros (y & o' & ?). simplify_eq. by destruct (Hts y o').
    + rewrite list_lookup_insert_ne by done. tauto.
  - intros t' y o'. rewrite Hheap.
    destruct (decide (t' = t)) as [->|Hne].
    + rewrite list_lookup_insert_eq by done. intros; simplify_eq.
      by destruct (Hts y o').
    + rewrite list_lookup_insert_ne by done. apply wf_running0.
  - by rewrite Hcalls, Hheap, length_insert.
  - by rewrite Hheap, length_insert.
  - intros Hc. assert (control st = NotStarted) as Hc'.
    { destruct Hctl as [<-|[s Hs]]; [done|].
      rewrite Hs in Hc. by apply notify_NotStarted in Hc. }
    rewrite (wf_idle0 Hc') in Hl. done.
  - intros index y rest race' Hc. rewrite Hheap, length_insert.
    destruct Hctl as [Heq|[s Hs]].
    + rewrite Heq in Hc. eauto.
    + rewrite Hs in Hc. apply notify_AwaitingSlot in Hc as [race Hc]. eauto.
  - rewrite Hcompl. apply NoDup_app. split_and!; [done| |apply NoDup_singleton].
    intros t' Hc ->%list_elem_of_singleton. apply wf_completed0 in Hc. tauto.
  - intros t'. rewrite Hcompl, Htasks, Hheap, length_insert, elem_of_app,
      list_elem_of_singleton, list_elem_of_filter, wf_completed0.
    destruct (decide (t' = t)) as [->|Hne]; [|tauto].
    split; [|tauto]. intros _. split; [done|]. tauto.
  - rewrite Hres, Hcompl, omap_app, wf_results0. f_equal. simpl.
    rewrite Hsucc. by destruct o.
  - rewrite Herr, Hcompl, wf_errors0, Heh.
    destruct (has_errorHandler cfg); [by destruct o|].
    rewrite omap_app, fmap_app. f_equal. simpl. rewrite Hfail. by destruct o.
  - rewrite Hehc, Hcompl, wf_errorHandlerCalls0, Heh.
    destruct (has_errorHandler cfg); [|by destruct o].
    rewrite omap_app. f_equal. simpl. rewrite Hfail. by destruct o.
Qed.

(** A task that waits for the error handler settles. *)
Lemma Wf_settle cfg st t s s' :
  Wf cfg st → heap st !! t = Some (Following s') → Wf cfg (settle t s st).
Proof.
  intros Hwf Hl.
  assert (t < length (heap st)) as Hlt by by apply lookup_lt_Some in Hl.
  destruct Hwf. split; simpl.
  - done.
  - done.
  - intros t'. rewrite wf_tasks0.
    destruct (decide (t' = t)) as [->|Hne].
    + rewrite list_lookup_insert_eq by done. rewrite Hl.
      split; intros (? & ? & ?); simplify_eq.
    + by rewrite list_lookup_insert_ne by done.
  - intros t' y o'.
    destruct (decide (t' = t)) as [->|Hne].
    + rewrite list_lookup_insert_eq by done. intros; simplify_eq.
    + rewrite list_lookup_insert_ne by done. apply wf_running0.
  - by rewrite length_insert.
  - by rewrite length_insert.
  - intros Hc%notify_NotStarted. rewrite (wf_idle0 Hc) in Hl. done.
  - intros index y rest race' [race Hc]%notify_AwaitingSlot.
    rewrite length_insert. eauto.
  - done.
  - intros t'. by rewrite length_insert.
  - done.
  - done.
  - done.
Qed.

Local Ltac complete_side :=
  simpl; rewrite ?app_nil_r;
  first [ done | apply same_config_refl | by left | right; by eexists ].

Lemma Wf_onFulfilled cfg st t x r :
  Wf cfg st → heap st !! t = Some (Running x (Resolves r)) →
  Wf cfg (onFulfilled t r st).
Proof.
  intros Hwf Hl.
  eapply (Wf_complete cfg st _ t x (Resolves r) (Following Fulfilled));
    complete_side.
Qed.

Lemma Wf_onRejected cfg st t x e :
  Wf cfg st → heap st !! t = Some (Running x (Rejects e)) →
  Wf cfg (onRejected t e x st).
Proof.
  intros Hwf Hl. unfold onRejected. cbn.
  fold (has_errorHandler (this st)).
  destruct (has_errorHandler (this st)) eqn:Heh.
  - destruct (call_errorHandler e x _) as [|e'|s].
    + eapply (Wf_complete cfg st _ t x (Rejects e) (Settled Fulfilled));
        rewrite ?Heh; complete_side.
    + eapply (Wf_complete cfg st _ t x (Rejects e) (Settled (Rejected e')));
        rewrite ?Heh; complete_side.
    + eapply (Wf_complete cfg st _ t x (Rejects e) (Following s));
        rewrite ?Heh; complete_side.
  - eapply (Wf_complete cfg st _ t x (Rejects e) (Settled Fulfilled));
      rewrite ?Heh; complete_side.
Qed.

(** The loop of [process] overwrites the control point. *)
Lemma process_from_set_control es st (c : @Control T E) :
  process_from es (set_control c st) = process_from es st.
Proof.
  revert st. induction es as [|[i x] rest IH]; intros st; simpl; [done|].
  change (this (set_control c st)) with (this st).
  destruct (hasReachedConcurrencyLimit (this st)); [done|].
  apply (IH (startProcessing x i st)).
Qed.

Lemma set_this_this st : set_this (this st) st = st.
Proof. by destruct st. Qed.

Lemma Wf_process_from cfg es st :
  Wf cfg st → control st = Finished Fulfilled →
  drop (length (heap st)) (entries (the_items cfg)) = es →
  Wf cfg (process_from es st).
Proof.
  revert st. induction es as [|[i x] rest IH]; intros st Hwf Hc Hd; simpl.
  - by apply Wf_set_control.
  - destruct (hasReachedConcurrencyLimit (this st)).
    + apply Wf_set_control; [done..|]. intros; by simplify_eq.
    + apply drop_entries in Hd as (-> & Hx & Hd).
      apply IH.
      * apply Wf_startProcessing; [done|..].
        -- by rewrite entries_lookup, Hx.
        -- by rewrite Hc.
        -- intros ???? Hc'. by rewrite Hc in Hc'.
      * done.
      * simpl. by rewrite length_app, Nat.add_1_r.
Qed.

Lemma Wf_process_from_any cfg es st :
  Wf cfg st →
  drop (length (heap st)) (entries (the_items cfg)) = es →
  Wf cfg (process_from es st).
Proof.
  intros Hwf Hd. rewrite <- (process_from_set_control _ _ (Finished Fulfilled)).
  apply Wf_process_from; [|done..]. destruct Hwf. by split.
Qed.

Lemma Wf_start cfg st :
  Wf cfg st → control st = NotStarted → Wf cfg (start st).
Proof.
  intros Hwf Hc. unfold start.
  destruct (validateInputs (this st)) as [f|ex] eqn:Hv.
  - apply Wf_set_control; [done..|]. intros; by simplify_eq.
  - apply validateInputs_inr in Hv as ->. rewrite set_this_this.
    unfold process. destruct (items (this st)) eqn:Hi;
      try (apply Wf_set_control; [done..|]; intros; by simplify_eq).
    apply Wf_process_from_any; [done|].
    rewrite (wf_idle _ _ Hwf Hc). simpl.
    unfold the_items. destruct (wf_config _ _ Hwf) as [<- _]. by rewrite Hi.
Qed.

Lemma Wf_resume cfg st st' : Wf cfg st → resume st = Some st' → Wf cfg st'.
Proof.
  intros Hwf Hr. unfold resume in Hr.
  destruct (control st) as [|index x rest race|all|s] eqn:Hc; try done.
  - destruct (winner race) as [[|e]|]; simplify_eq.
    + pose proof (wf_position _ _ Hwf _ _ _ _ Hc) as Hd.
      apply drop_entries in Hd as (-> & Hx & Hd).
      rewrite <- (process_from_set_control _ _ (Finished Fulfilled)).
      apply Wf_process_from; [| done |].
      * change (set_control ?c (startProcessing ?x ?i ?s))
          with (startProcessing x i (set_control c s)).
        apply Wf_startProcessing;
          [|simpl; by rewrite entries_lookup, Hx|done..].
        destruct Hwf. by split.
      * simpl. by rewrite length_app, Nat.add_1_r.
    + apply Wf_set_control; [done..|]. intros; by simplify_eq.
  - destruct (rejection all), (awaited all); simplify_eq;
      (apply Wf_set_control; [done..|]; intros; by simplify_eq).
Qed.

Lemma Wf_step cfg ev st st' :
  Wf cfg st → step ev st = Some st' → Wf cfg st'.
Proof.
  intros Hwf Hs. destruct ev as [|t|t|]; simpl in Hs.
  - destruct (control st) eqn:Hc; simplify_eq. by apply Wf_start.
  - destruct (heap st !! t) as [[x [r|e]|s|s]|] eqn:Hl; simplify_eq.
    + by eapply Wf_onFulfilled.
    + by eapply Wf_onRejected.
  - destruct (heap st !! t) as [[x o|s|s]|] eqn:Hl; simplify_eq.
    by eapply Wf_settle.
  - by eapply Wf_resume.
Qed.

Lemma run_app evs evs' st :
  run (evs ++ evs') st = st' ← run evs st; run evs' st'.
Proof.
  revert st. induction evs as [|ev evs IH]; intros st; simpl; [done|].
  destruct (step ev st); simpl; [apply IH|done].
Qed.

(** An invariant of the steps holds along every run. *)
Lemma run_invariant (P : @State T R E → Prop) evs st st' :
  (∀ ev s s', P s → step ev s = Some s' → P s') →
  P st → run evs st = Some st' → P st'.
Proof.
  intros Hstep. revert st. induction evs as [|ev evs IH]; intros st HP Hr;
    simpl in Hr; simplify_eq; [done|].
  destruct (step ev st) as [s|] eqn:Hs; simplify_eq/=. eauto.
Qed.

End Consistency.

(** ** The control point and the bound *)

Lemma num_ge_length_mono (n m : nat) (c : JsNumber) :
  n ≤ m → num_ge (num_of_length m) c = false →
  num_ge (num_of_length n) c = false.
Proof.
  intros Hle. destruct c as [|q| |]; simpl; try done.
  intros Hm. apply not_true_is_false. intros Hn. apply not_true_iff_false in Hm.
  apply Hm. apply Qle_bool_iff. apply Qle_bool_iff in Hn.
  eapply Qle_trans; [exact Hn|]. rewrite <- Zle_Qle. lia.
Qed.

Section Control.
Context {T R E : Type}.
Implicit Types (cfg ex : PromisePoolExecutor T R E) (st : @State T R E).
Implicit Types (t : TaskRef).

Lemma limit_reached_mono cfg n m :
  n ≤ m → limit_reached cfg m = false → limit_reached cfg n = false.
Proof.
  unfold limit_reached. destruct (concurrency cfg); try done.
  apply num_ge_length_mono.
Qed.

Lemma started_below_limit_mono cfg n m :
  n ≤ m → started_below_limit cfg m → started_below_limit cfg n.
Proof.
  intros Hle [->|Hm]; [left; lia|].
  destruct n; [by left|right].
  apply limit_reached_mono with (m - 1); [lia|done].
Qed.

Lemma Ctl_init cfg : unused cfg → Ctl cfg (init cfg).
Proof. intros (Ht & _). split; simpl; [|done]. left. by rewrite Ht. Qed.

Lemma Wf_running_pending cfg st t :
  Wf cfg st → t ∈ tasks (this st) → pending st t.
Proof.
  intros Hwf (x & o & Hl)%(wf_tasks _ _ Hwf). by exists (Running x o).
Qed.

Lemma Ctl_process_from cfg es st :
  Wf cfg st → control st = Finished Fulfilled →
  started_below_limit cfg (length (tasks (this st))) →
  drop (length (heap st)) (entries (the_items cfg)) = es →
  Ctl cfg (process_from es st).
Proof.
  revert st. induction es as [|[i x] rest IH]; intros st Hwf Hc Hb Hd; simpl.
  - split; simpl; [done|]. split.
    + apply (f_equal length) in Hd. rewrite length_drop, length_entries in Hd.
      pose proof (wf_started _ _ Hwf). simpl in Hd. lia.
    + intros _. split; [done|]. intros t. by apply Wf_running_pending with cfg.
  - destruct (hasReachedConcurrencyLimit (this st)) eqn:Hlim.
    + rewrite (hasReachedConcurrencyLimit_config _ cfg) in Hlim
        by apply Hwf.
      split; simpl; [done|]. split_and!; try done.
      * by left.
      * intros _ t. by apply Wf_running_pending with cfg.
    + rewrite (hasReachedConcurrencyLimit_config _ cfg) in Hlim
        by apply Hwf.
      apply drop_entries in Hd as (-> & Hx & Hd).
      apply IH.
      * apply Wf_startProcessing; [done|..].
        -- by rewrite entries_lookup, Hx.
        -- by rewrite Hc.
        -- intros ???? Hc'. by rewrite Hc in Hc'.
      * done.
      * simpl. rewrite length_app. simpl. right.
        by replace (length (tasks (this st)) + 1 - 1)
          with (length (tasks (this st))) by lia.
      * simpl. by rewrite length_app, Nat.add_1_r.
Qed.

Lemma Ctl_process_from_any cfg es st :
  Wf cfg st →
  started_below_limit cfg (length (tasks (this st))) →
  drop (length (heap st)) (entries (the_items cfg)) = es →
  Ctl cfg (process_from es st).
Proof.
  intros Hwf Hb Hd. rewrite <- (process_from_set_control _ _ (Finished Fulfilled)).
  apply Ctl_process_from; [|done..]. destruct Hwf. by split.
Qed.

Lemma Ctl_start cfg st :
  Wf cfg st → Ctl cfg st → control st = NotStarted → Ctl cfg (start st).
Proof.
  intros Hwf [Hb _] Hc. unfold start.
  destruct (validateInputs (this st)) as [f|ex] eqn:Hv.
  - by split.
  - apply validateInputs_inr in Hv as ->. rewrite set_this_this.
    unfold process. destruct (items (this st)) eqn:Hi; try by split.
    apply Ctl_process_from_any; [done..|].
    rewrite (wf_idle _ _ Hwf Hc). simpl.
    unfold the_items. destruct (wf_config _ _ Hwf) as [<- _]. by rewrite Hi.
Qed.

Lemma Ctl_resume cfg st st' :
  Wf cfg st → Ctl cfg st → resume st = Some st' → Ctl cfg st'.
Proof.
  intros Hwf [Hb Hctl] Hr. unfold resume in Hr.
  destruct (control st) as [|index x rest race|all|s] eqn:Hc; try done.
  - destruct Hctl as (Hsub & Hlen & Hwin & Hpend & Hreach & Hbc).
    destruct (winner race) as [[|e]|] eqn:Hw; simplify_eq.
    + pose proof (wf_position _ _ Hwf _ _ _ _ Hc) as Hd.
      apply drop_entries in Hd as (-> & Hx & Hd).
      specialize (Hwin (ltac:(by eexists))).
      rewrite <- (process_from_set_control _ _ (Finished Fulfilled)).
      apply Ctl_process_from; [| done | |].
      * change (set_control ?c (startProcessing ?x ?i ?s))
          with (startProcessing x i (set_control c s)).
        apply Wf_startProcessing;
          [|simpl; by rewrite entries_lookup, Hx|done..].
        destruct Hwf. by split.
      * simpl. rewrite length_app. simpl. right.
        destruct Hbc as [Hz|Hbc]; [lia|].
        apply limit_reached_mono with (length (contenders race) - 1);
          [lia|done].
      * simpl. by rewrite length_app, Nat.add_1_r.
    + by split.
  - destruct Hctl as [Hlen Hrej].
    destruct (rejection all) eqn:Hrj, (awaited all) eqn:Haw; simplify_eq;
      try by split.
    split; simpl; [done|]. split; [done|].
    destruct (Hrej eq_refl) as [Hsub _].
    destruct (tasks (this st)) as [|t ts]; [done|].
    specialize (Hsub t (list_elem_of_here _ _)). by apply elem_of_nil in Hsub.
Qed.

Lemma contenders_race_notify t (s : Settlement T E) race :
  contenders (race_notify t s race) = contenders race.
Proof. unfold race_notify. by repeat case_match. Qed.

(** What the reaction of a task does to the state. *)
Lemma React_effect st st' t :
  step (React t) st = Some st' →
  ∃ x o ts',
    heap st !! t = Some (Running x o)
    ∧ heap st' = <[t := ts']> (heap st)
    ∧ tasks (this st') =
        splice1 (indexOf t (tasks (this st))) (tasks (this st))
    ∧ same_config (this st') (this st)
    ∧ completed st' = completed st ++ [t]
    ∧ ((ts' = Settled Fulfilled
        ∧ control st' = notify t Fulfilled (control st))
       ∨ (ts' = Following Fulfilled ∧ control st' = control st)
       ∨ (has_errorHandler (this st) = true ∧ (∃ e, o = Rejects e)
          ∧ ((∃ s, ts' = Following s ∧ control st' = control st)
             ∨ (∃ e', ts' = Settled (Rejected e')
                ∧ control st' = notify t (Rejected e') (control st))))).
Proof.
  simpl. intros Hs.
  destruct (heap st !! t) as [[x [r|e]|s|s]|] eqn:Hl; simplify_eq.
  - exists x, (Resolves r), (Following Fulfilled). simpl.
    split_and!; [done..|by repeat split|right; by left].
  - exists x, (Rejects e). unfold onRejected. cbn.
    fold (has_errorHandler (this st)).
    destruct (has_errorHandler (this st)) eqn:Heh.
    + destruct (call_errorHandler e x _) as [|e'|s].
      * exists (Settled Fulfilled). simpl.
        split_and!; [done..|by repeat split|by left].
      * exists (Settled (Rejected e')). simpl.
        split_and!; [done..|by repeat split|].
        right. right. split_and!; [done|by eexists|]. right. by eexists.
      * exists (Following s). simpl.
        split_and!; [done..|by repeat split|].
        right. right. split_and!; [done|by eexists|]. left. by eexists.
    + exists (Settled Fulfilled). simpl.
      split_and!; [done..|by repeat split|by left].
Qed.

(** A pending task leaves [this.tasks] if it was there and changes its
    state; the promises that observe it are notified when it settles. *)
Lemma Ctl_update cfg st st' t ts ts' :
  Wf cfg st → Ctl cfg st →
  heap st !! t = Some ts → (∀ s, ts ≠ Settled s) →
  heap st' = <[t := ts']> (heap st) →
  tasks (this st') = filter (λ x, x ≠ t) (tasks (this st)) →
  ((∃ s, ts' = Settled s ∧ control st' = notify t s (control st))
   ∨ ((∀ s, ts' ≠ Settled s) ∧ control st' = control st)) →
  Ctl cfg st'.
Proof.
  intros Hwf [Hb Hctl] Hl Hts Hheap Htasks Hcase.
  assert (t < length (heap st)) as Hlt by by apply lookup_lt_Some in Hl.
  assert (∀ t', t' ≠ t → pending st t' → pending st' t') as F1.
  { intros t' Hne (u & Hu & Hns). exists u.
    by rewrite Hheap, list_lookup_insert_ne. }
  assert ((∀ s, ts' ≠ Settled s) → pending st' t) as F1'.
  { intros Hns. exists ts'. by rewrite Hheap, list_lookup_insert_eq. }
  assert (length (tasks (this st')) ≤ length (tasks (this st))) as F2.
  { rewrite Htasks. apply length_filter. }
  assert (tasks (this st') ⊆ tasks (this st)) as F3.
  { rewrite Htasks. intros y Hy. by apply list_elem_of_filter in Hy as [_ ?]. }
  assert (t ∈ tasks (this st) →
          length (tasks (this st')) < length (tasks (this st))) as F4.
  { intros Hin. rewrite Htasks. apply length_filter_lt with t; [done|].
    by intros ?. }
  assert (t ∉ tasks (this st) → tasks (this st') = tasks (this st)) as F5.
  { intros Hin. by rewrite Htasks, filter_ne_notin. }
  assert (∀ t', t' ∈ tasks (this st') → t' ≠ t) as F6.
  { intros t'. rewrite Htasks. by intros [? _]%list_elem_of_filter. }
  split; [by apply started_below_limit_mono with (length (tasks (this st)))|].
  destruct (control st) as [|index x rest race|all|[|e]] eqn:Hc.
  - rewrite Hctl in Hl. done.
  - destruct Hctl as (Hsub & Hlen & Hwin & Hpend & Hreach & Hbc).
    assert (tasks (this st') = contenders race
            ∨ length (tasks (this st')) < length (contenders race)) as Hlen'.
    { destruct (decide (t ∈ tasks (this st))) as [Hin|Hin].
      - right. specialize (F4 Hin). destruct Hlen as [<-|?]; lia.
      - rewrite (F5 Hin). done. }
    destruct Hcase as [(s & -> & ->)|[Hns ->]]; simpl.
    + rewrite contenders_race_notify.
      split_and!; [by intros y Hy; apply Hsub, F3|done| | |done|done].
      * unfold race_notify. destruct (winner race) eqn:Hw.
        { intros _. specialize (Hwin (ltac:(by eexists))). lia. }
        destruct (decide (t ∈ contenders race)) as [Hin|Hin]; simpl;
          [|rewrite Hw; by intros [? ?]].
        intros _. destruct (decide (t ∈ tasks (this st))) as [Hin'|Hin'].
        -- specialize (F4 Hin'). destruct Hlen as [<-|?]; lia.
        -- destruct Hlen as [Heq|?]; [|lia]. by rewrite Heq in Hin'.
      * unfold race_notify. destruct (winner race) eqn:Hw; [by rewrite Hw|].
        destruct (decide (t ∈ contenders race)) as [Hin|Hin]; simpl; [done|].
        intros _ t' Ht'. apply F1; [|by apply Hpend]. by intros ->.
    + split_and!; [by intros y Hy; apply Hsub, F3|done| | |done|done].
      * intros Hw. specialize (Hwin Hw). lia.
      * intros Hw t' Ht'. destruct (decide (t' = t)) as [->|Hne]; [auto|].
        apply F1; [done|]. by apply Hpend.
  - destruct Hctl as [Hlen Hrej].
    destruct Hcase as [(s & -> & ->)|[Hns ->]]; simpl.
    + split; [by rewrite Hheap, length_insert|].
      unfold all_notify. destruct (rejection all) eqn:Hrj; [by rewrite Hrj|].
      destruct (Hrej eq_refl) as [Hsub Hpend].
      destruct (decide (t ∈ awaited all)) as [Hin|Hin].
      * destruct s as [|e]; simpl; [|done]. intros _. split.
        -- intros t' Ht'. apply list_elem_of_filter. split; [by apply F6|].
           by apply Hsub, F3.
        -- intros t' [Hne Ht']%list_elem_of_filter. apply F1; [done|].
           by apply Hpend.
      * rewrite Hrj. intros _. split; [by intros y Hy; apply Hsub, F3|].
        intros t' Ht'. apply F1; [by intros ->|]. by apply Hpend.
    + split; [by rewrite Hheap, length_insert|].
      intros Hrj. destruct (Hrej Hrj) as [Hsub Hpend]. split; [by intros y Hy; apply Hsub, F3|].
      intros t' Ht'. destruct (decide (t' = t)) as [->|Hne]; [auto|].
      apply F1; [done|]. by apply Hpend.
  - destruct Hctl as [Hlen Hnil].
    assert (control st' = Finished Fulfilled) as ->.
    { by destruct Hcase as [(s & -> & ->)|[Hns ->]]. }
    split; [by rewrite Hheap, length_insert|].
    by rewrite Htasks, Hnil.
  - assert (control st' = Finished (Rejected e)) as ->; [|done].
    by destruct Hcase as [(s & -> & ->)|[Hns ->]].
Qed.

Lemma Ctl_step cfg ev st st' :
  Wf cfg st → Ctl cfg st → step ev st = Some st' → Ctl cfg st'.
Proof.
  intros Hwf Hctl Hs. destruct ev as [|t|t|].
  - simpl in Hs. destruct (control st) eqn:Hc; simplify_eq.
    by apply Ctl_start.
  - apply React_effect in Hs
      as (x & o & ts' & Hl & Hheap & Htasks & Hcfg & _ & Hcase).
    rewrite splice1_indexOf in Htasks;
      [|apply Hwf|apply (wf_tasks _ _ Hwf); eauto].
    eapply (Ctl_update cfg st st' t _ ts'); [done..| |].
    + exact Htasks.
    + destruct Hcase
        as [[-> ->]|[[-> ->]|(_ & _ & [(s & -> & ->)|(e' & -> & ->)])]].
      * left. by eexists.
      * by right.
      * by right.
      * left. by eexists.
  - simpl in Hs. destruct (heap st !! t) as [[x o|s|s]|] eqn:Hl; simplify_eq.
    eapply (Ctl_update cfg st _ t _ (Settled s)); [done..| |].
    + simpl. rewrite filter_ne_notin; [done|].
      intros (x & o & Hx)%(wf_tasks _ _ Hwf). by rewrite Hl in Hx.
    + left. by eexists.
  - by eapply Ctl_resume.
Qed.

Lemma Inv_run cfg evs st :
  unused cfg → run evs (init cfg) = Some st → Wf cfg st ∧ Ctl cfg st.
Proof.
  intros Hu.
  apply (run_invariant (λ s, Wf cfg s ∧ Ctl cfg s)).
  - intros ev s s' [Hwf Hctl] Hs. split.
    + by eapply Wf_step.
    + by eapply Ctl_step.
  - split; [by apply Wf_init|by apply Ctl_init].
Qed.
End Control.

(** ** Runs without an error handler, progress and termination *)

Lemma num_ge_1_not_reached_0 (c : JsNumber) :
  num_ge c (Num 1) = true → num_ge (num_of_length 0) c = false.
Proof.
  destruct c as [|q| |]; simpl; try done.
  intros Hq%Qle_bool_iff. apply not_true_is_false. intros H0%Qle_bool_iff.
  change (q <= 0)%Q in H0. lra.
Qed.

Lemma sum_list_insert {A} (f : A → nat) (l : list A) (i : nat) (a b : A) :
  l !! i = Some a →
  sum_list_with f (<[i := b]> l) + f a = sum_list_with f l + f b.
Proof.
  revert i. induction l as [|y l IH]; intros [|i] Hl; simplify_eq/=; [lia|].
  specialize (IH i Hl). lia.
Qed.

Section Progress.
Context {T R E : Type}.
Implicit Types (cfg ex : PromisePoolExecutor T R E) (st : @State T R E).
Implicit Types (t : TaskRef).

Lemma Calm_process_from es st :
  (∀ t ts, heap st !! t = Some ts →
     match ts with
     | Running _ _ | Following Fulfilled | Settled Fulfilled => True
     | Following (Rejected _) | Settled (Rejected _) => False
     end) →
  Calm (process_from es st).
Proof.
  revert st. induction es as [|[i x] rest IH]; intros st Hh; simpl.
  - by split.
  - destruct (hasReachedConcurrencyLimit (this st)); [by split|].
    apply IH. simpl. intros t ts [Hl|[_ Hl]]%lookup_app_Some;
      [by apply (Hh t)|].
    by apply list_lookup_singleton_Some in Hl as [_ <-].
Qed.

(** A task ends well: it is fulfilled, or follows a promise of the
    error handler that will be. *)
Lemma Calm_update st st' t ts' :
  Calm st → t < length (heap st) →
  heap st' = <[t := ts']> (heap st) →
  ts' = Settled Fulfilled ∨ ts' = Following Fulfilled →
  control st' = control st ∨ control st' = notify t Fulfilled (control st) →
  Calm st'.
Proof.
  intros [Hh Hq] Hlt Hheap Hts Hctl. split.
  - intros t' ts. rewrite Hheap.
    destruct (decide (t' = t)) as [->|Hne].
    + rewrite list_lookup_insert_eq by done. intros [= <-].
      by destruct Hts as [->| ->].
    + rewrite list_lookup_insert_ne by done. apply Hh.
  - destruct Hctl as [->| ->]; [done|].
    destruct (control st) as [|i y rest race|all|[|e]]; try done.
    + simpl. unfold race_notify.
      destruct (winner race) eqn:Hw; [by rewrite Hw|].
      destruct (decide _); simpl; [done|by rewrite Hw].
    + simpl. unfold all_notify. rewrite Hq. by destruct (decide _).
Qed.

Lemma validateInputs_config ex cfg :
  same_config ex cfg → validateInputs cfg = inr cfg →
  validateInputs ex = inr ex.
Proof.
  intros (Hi & Hcc & Hhd & He) Hv.
  unfold validateInputs in *. rewrite Hi, Hcc, Hhd, He.
  repeat case_match; simplify_eq; done.
Qed.

Lemma Calm_step cfg ev st st' :
  validateInputs cfg = inr cfg → gentle cfg →
  Wf cfg st → Calm st → step ev st = Some st' → Calm st'.
Proof.
  intros Hv Hg Hwf Hcalm Hs. destruct ev as [|t|t|].
  - simpl in Hs. destruct (control st) eqn:Hc; simplify_eq.
    unfold start.
    rewrite (validateInputs_config _ cfg (wf_config _ _ Hwf) Hv).
    rewrite set_this_this. unfold process.
    destruct (validateInputs_number _ _ Hv) as (_ & _ & [xs Hxs] & _).
    destruct (wf_config _ _ Hwf) as (Hi & _). rewrite Hi, Hxs.
    apply Calm_process_from, Hcalm.
  - simpl in Hs.
    destruct (heap st !! t) as [[x [r|e]|s|s]|] eqn:Hl; simplify_eq.
    + apply (Calm_update st _ t (Following Fulfilled)); simpl;
        [done|by apply lookup_lt_Some in Hl|done|by right|by left].
    + apply lookup_lt_Some in Hl as Hlt.
      unfold onRejected. cbn. fold (has_errorHandler (this st)).
      destruct (has_errorHandler (this st)) eqn:Heh.
      * destruct (wf_config _ _ Hwf) as (_ & _ & _ & He).
        destruct (validateInputs_number _ _ Hv) as (_ & _ & _ & Hfun).
        rewrite (has_errorHandler_config _ cfg) in Heh by apply Hwf.
        destruct (Hfun Heh) as [g Hgf].
        unfold call_errorHandler. cbn. rewrite He, Hgf.
        destruct (Hg g e x Hgf) as [-> | ->].
        -- apply (Calm_update st _ t (Settled Fulfilled)); simpl;
             [done|done|done|by left|by right].
        -- apply (Calm_update st _ t (Following Fulfilled)); simpl;
             [done|done|done|by right|by left].
      * apply (Calm_update st _ t (Settled Fulfilled)); simpl;
          [done|done|done|by left|by right].
  - simpl in Hs. destruct (heap st !! t) as [[x o|s|s]|] eqn:Hl; simplify_eq.
    destruct Hcalm as [Hh Hq]. pose proof (Hh _ _ Hl) as Hs.
    destruct s as [|e]; [|done].
    apply (Calm_update st _ t (Settled Fulfilled)); simpl;
      [done|by apply lookup_lt_Some in Hl|done|by left|by right].
  - destruct Hcalm as [Hh Hq]. simpl in Hs. unfold resume in Hs.
    destruct (control st) as [|i y rest race|all|[|e]] eqn:Hc; try done.
    + destruct (winner race) as [[|e]|] eqn:Hw; simplify_eq.
      * apply Calm_process_from. simpl.
        intros t ts [Hl|[_ Hl]]%lookup_app_Some; [by apply (Hh t)|].
        by apply list_lookup_singleton_Some in Hl as [_ <-].
      * by destruct (Hq e).
    + rewrite Hq in Hs. destruct (awaited all); simplify_eq. by split.
Qed.

Lemma Calm_run cfg evs st :
  unused cfg → validateInputs cfg = inr cfg → gentle cfg →
  run evs (init cfg) = Some st → Calm st.
Proof.
  intros Hu Hv Hg Hr.
  apply (run_invariant (λ s, Wf cfg s ∧ Calm s) evs (init cfg) st);
    [| |done].
  - intros ev s s' [Hwf Hq] Hs. split; [by eapply Wf_step|].
    by eapply Calm_step.
  - split; [by apply Wf_init|]. by split.
Qed.

(** Without an error handler there is none that could raise. *)
Lemma no_errorHandler_gentle cfg : has_errorHandler cfg = false → gentle cfg.
Proof.
  unfold has_errorHandler. intros Heh g e x Hg. by rewrite Hg in Heh.
Qed.

(** A pending task has a job to run. *)
Lemma pending_step st t :
  pending st t →
  (∃ st', step (React t) st = Some st')
  ∨ (∃ st', step (TaskSettles t) st = Some st').
Proof.
  intros ([x [r|e]|s|s] & Hl & Hns); simpl; rewrite Hl.
  - left. by eexists.
  - left. by eexists.
  - right. by eexists.
  - by destruct (Hns s).
Qed.

(** With a valid configuration a run that is not over is never stuck. *)
Lemma progress cfg st :
  validateInputs cfg = inr cfg → Wf cfg st → Ctl cfg st →
  (∀ s, control st ≠ Finished s) → ∃ ev st', step ev st = Some st'.
Proof.
  intros Hv Hwf [Hb Hctl] Hnf.
  destruct (control st) as [|i x rest race|all|s] eqn:Hc.
  - exists Start. simpl. rewrite Hc. by eexists.
  - destruct Hctl as (Hsub & Hlen & Hwin & Hpend & Hreach & Hbc).
    destruct (winner race) as [s|] eqn:Hw.
    + exists Resume. simpl. unfold resume. rewrite Hc, Hw.
      destruct s; by eexists.
    + destruct (contenders race) as [|t ts] eqn:Hcont.
      * exfalso. simpl in Hreach. unfold limit_reached in Hreach.
        destruct (validateInputs_number _ _ Hv)
          as (_ & (c & Hcc & Hge) & _).
        rewrite Hcc in Hreach.
        by rewrite (num_ge_1_not_reached_0 c Hge) in Hreach.
      * destruct (pending_step st t) as [[st' Hs]|[st' Hs]]; [|by eauto..].
        apply Hpend; [done|]. apply list_elem_of_here.
  - destruct Hctl as [Hlen Hrej].
    destruct (rejection all) as [e|] eqn:Hrj.
    + exists Resume. simpl. unfold resume. rewrite Hc, Hrj. by eexists.
    + destruct (awaited all) as [|t ts] eqn:Haw.
      * exists Resume. simpl. unfold resume. rewrite Hc, Hrj, Haw.
        by eexists.
      * destruct (Hrej eq_refl) as [_ Hpend].
        destruct (pending_step st t) as [[st' Hs]|[st' Hs]]; [|by eauto..].
        apply Hpend. apply list_elem_of_here.
  - by destruct (Hnf s).
Qed.
End Progress.

Section Termination.
Context {T R E : Type}.
Implicit Types (cfg ex : PromisePoolExecutor T R E) (st : @State T R E).
Implicit Types (t : TaskRef).

Lemma control_weight_notify t (s : Settlement T E) (c : @Control T E) :
  control_weight (notify t s c) = control_weight c.
Proof. by destruct c. Qed.

Lemma startProcessing_jobs_left cfg st x i :
  length (heap st) < length (the_items cfg) →
  jobs_left cfg (startProcessing x i st) + 1 = jobs_left cfg st.
Proof.
  intros Hlt. unfold jobs_left. simpl.
  rewrite length_app, sum_list_with_app. simpl. lia.
Qed.

Lemma process_from_jobs_left cfg es st :
  length (heap st) + length es ≤ length (the_items cfg) →
  jobs_left cfg (process_from es st) + control_weight (control st)
  ≤ jobs_left cfg st + 2.
Proof.
  revert st. induction es as [|[i x] rest IH]; intros st Hlen; simpl.
  - unfold jobs_left. simpl. lia.
  - destruct (hasReachedConcurrencyLimit (this st)).
    + unfold jobs_left. simpl. lia.
    + simpl in Hlen.
      pose proof (startProcessing_jobs_left cfg st x i ltac:(lia)) as Hj.
      specialize (IH (startProcessing x i st)). simpl in IH.
      rewrite length_app in IH. simpl in IH.
      specialize (IH ltac:(lia)). lia.
Qed.

(** Every job consumes one of the jobs left. *)
Lemma step_jobs_left cfg ev st st' :
  Wf cfg st → step ev st = Some st' → jobs_left cfg st' < jobs_left cfg st.
Proof.
  intros Hwf Hs. destruct ev as [|t|t|].
  - simpl in Hs. destruct (control st) eqn:Hc; simplify_eq.
    pose proof (wf_idle _ _ Hwf Hc) as Hh. unfold start.
    destruct (validateInputs (this st)) as [f|ex] eqn:Hv.
    + unfold jobs_left. simpl. rewrite Hc. simpl. lia.
    + apply validateInputs_inr in Hv as ->. rewrite set_this_this.
      unfold process. destruct (items (this st)) eqn:Hi;
        try (unfold jobs_left; simpl; rewrite Hc; simpl; lia).
      pose proof (process_from_jobs_left cfg (entries xs) st) as Hj.
      rewrite Hh, length_entries, Hc in Hj. simpl in Hj.
      assert (the_items cfg = xs) as Hxs.
      { unfold the_items. destruct (wf_config _ _ Hwf) as [<- _].
        by rewrite Hi. }
      rewrite Hxs in Hj. specialize (Hj ltac:(lia)). simpl in Hj. lia.
  - apply React_effect in Hs
      as (x & o & ts' & Hl & Hheap & Htasks & Hcfg & _ & Hcase).
    unfold jobs_left. rewrite Hheap, length_insert.
    pose proof (sum_list_insert task_weight (heap st) t _ ts' Hl) as Hsum.
    simpl in Hsum.
    assert (control_weight (control st') = control_weight (control st)
            ∧ task_weight ts' ≤ 1) as [-> ?]; [|lia].
    destruct Hcase
      as [[-> ->]|[[-> ->]|(_ & _ & [(s & -> & ->)|(e' & -> & ->)])]];
      rewrite ?control_weight_notify; simpl; split; lia.
  - simpl in Hs. destruct (heap st !! t) as [[x o|s|s]|] eqn:Hl; simplify_eq.
    unfold jobs_left. simpl. rewrite length_insert, control_weight_notify.
    pose proof (sum_list_insert task_weight (heap st) t _ (Settled s) Hl)
      as Hsum.
    simpl in Hsum. lia.
  - simpl in Hs. unfold resume in Hs.
    destruct (control st) as [|i x rest race|all|s] eqn:Hc; try done.
    + destruct (winner race) as [[|e]|]; simplify_eq.
      * pose proof (wf_position _ _ Hwf _ _ _ _ Hc) as Hd.
        apply drop_entries in Hd as (-> & Hx & Hd).
        apply lookup_lt_Some in Hx.
        pose proof (startProcessing_jobs_left cfg st x (length (heap st)) Hx)
          as Hj.
        pose proof (process_from_jobs_left cfg rest
                      (startProcessing x (length (heap st)) st)) as Ha.
        simpl in Ha. rewrite Hc in Ha. simpl in Ha.
        rewrite length_app in Ha. simpl in Ha.
        apply (f_equal length) in Hd.
        rewrite length_drop, length_entries in Hd.
        specialize (Ha ltac:(lia)). lia.
      * unfold jobs_left. simpl. rewrite Hc. simpl. lia.
    + destruct (rejection all), (awaited all); simplify_eq;
        unfold jobs_left; simpl; rewrite Hc; simpl; lia.
Qed.

Lemma run_jobs_left cfg evs st st' :
  Wf cfg st → run evs st = Some st' →
  jobs_left cfg st' + length evs ≤ jobs_left cfg st.
Proof.
  revert st. induction evs as [|ev evs IH]; intros st Hwf Hr; simpl in Hr.
  - simplify_eq. simpl. lia.
  - destruct (step ev st) as [s|] eqn:Hs; simplify_eq/=.
    pose proof (step_jobs_left _ _ _ _ Hwf Hs).
    specialize (IH s (Wf_step _ _ _ _ Hwf Hs) Hr). lia.
Qed.

(** A run has at most three jobs for each item and three of its own. *)
Lemma run_bounded cfg evs st :
  unused cfg → run evs (init cfg) = Some st →
  length evs ≤ 3 * length (the_items cfg) + 3.
Proof.
  intros Hu Hr.
  pose proof (run_jobs_left cfg evs _ _ (Wf_init _ Hu) Hr) as Hj.
  unfold jobs_left at 2 in Hj. simpl in Hj. lia.
Qed.

(** With a valid configuration every run can be carried on until
    [start] is settled. *)
Lemma run_completes cfg st :
  validateInputs cfg = inr cfg → Wf cfg st → Ctl cfg st →
  ∃ evs st', run evs st = Some st' ∧ ∃ s, control st' = Finished s.
Proof.
  intros Hv. remember (jobs_left cfg st) as n eqn:Hn. revert st Hn.
  induction n as [n IH] using lt_wf_ind. intros st -> Hwf Hctl.
  destruct (control st) as [|i x rest race|all|s] eqn:Hc;
    [| | |exists [], st; split; [done|by eexists]];
    (destruct (progress cfg st Hv Hwf Hctl) as (ev & st1 & Hs);
      [by rewrite Hc|];
     destruct (IH _ (step_jobs_left _ _ _ _ Hwf Hs) st1 eq_refl
                 (Wf_step _ _ _ _ Hwf Hs) (Ctl_step _ _ _ _ Hwf Hctl Hs))
       as (evs & st' & Hr & Hfin);
     exists (ev :: evs), st'; split; [simpl; by rewrite Hs|done]).
Qed.
End Termination.

(** ** The configuration setters and the validation *)

Section Configuration.
Context {T R E : Type}.
Implicit Types (ex : PromisePoolExecutor T R E) (st : @State T R E).

(** C10. Each setter returns the executor with its own field assigned
    and every other field as it was: [withConcurrency] changes only the
    concurrency, [for] only the items, [withHandler] only the handler,
    [handleError] only the error handler; none of them touches the
    results, the errors or the active tasks. *)
Theorem setters_frame ex c xs h g :
  (concurrency (withConcurrency c ex) = c
   ∧ items (withConcurrency c ex) = items ex
   ∧ handler (withConcurrency c ex) = handler ex
   ∧ errorHandler (withConcurrency c ex) = errorHandler ex
   ∧ tasks (withConcurrency c ex) = tasks ex
   ∧ results (withConcurrency c ex) = results ex
   ∧ errors (withConcurrency c ex) = errors ex)
  ∧ (items (for_ xs ex) = xs
     ∧ concurrency (for_ xs ex) = concurrency ex
     ∧ handler (for_ xs ex) = handler ex
     ∧ errorHandler (for_ xs ex) = errorHandler ex
     ∧ tasks (for_ xs ex) = tasks ex
     ∧ results (for_ xs ex) = results ex
     ∧ errors (for_ xs ex) = errors ex)
  ∧ (handler (withHandler h ex) = h
     ∧ items (withHandler h ex) = items ex
     ∧ concurrency (withHandler h ex) = concurrency ex
     ∧ errorHandler (withHandler h ex) = errorHandler ex
     ∧ tasks (withHandler h ex) = tasks ex
     ∧ results (withHandler h ex) = results ex
     ∧ errors (withHandler h ex) = errors ex)
  ∧ (errorHandler (handleError g ex) = g
     ∧ items (handleError g ex) = items ex
     ∧ concurrency (handleError g ex) = concurrency ex
     ∧ handler (handleError g ex) = handler ex
     ∧ tasks (handleError g ex) = tasks ex
     ∧ results (handleError g ex) = results ex
     ∧ errors (handleError g ex) = errors ex).
Proof. repeat split. Qed.

Lemma validateInputs_invalid ex :
  invalid ex → ∃ f, validateInputs ex = inl f.
Proof.
  unfold invalid, validateInputs, has_errorHandler.
  intros [Hh|[Hc|[Hi|[Ht He]]]].
  - apply String.eqb_neq in Hh. rewrite Hh. by eexists.
  - rewrite Hc. simpl. destruct (negb _); by eexists.
  - rewrite Hi. simpl. repeat (destruct (negb _); [by eexists|]). by eexists.
  - apply String.eqb_neq in He. rewrite Ht, He. simpl.
    repeat (destruct (negb _); [by eexists|]). by eexists.
Qed.

Lemma validateInputs_valid ex : valid ex → validateInputs ex = inr ex.
Proof.
  unfold valid, validateInputs, has_errorHandler.
  intros (Hh & Hc & Hi & He). apply String.eqb_eq in Hh.
  rewrite Hh, Hc, Hi. simpl.
  destruct (truthy (errorHandler ex)); [|done].
  specialize (He eq_refl). apply String.eqb_eq in He. by rewrite He.
Qed.

(** Nothing can happen once [start] has failed on an unused executor. *)
Lemma rejected_unused_stuck ex f ev :
  step ev (set_control (Finished (Rejected (InvalidConfig f))) (init ex))
  = None.
Proof. by destruct ev as [|[|t]|[|t]|]. Qed.

(** C6. When the handler is not a function, or the concurrency is not
    a number that is at least 1, or the items are not an array, or the
    error handler is set (truthy, the test the code makes) and is not a
    function, [start ()] rejects with the error of [validateInputs]
    before any item is processed: the handler has not been called and no
    job is left that could call it.  On a valid configuration
    [validateInputs ()] returns the executor unchanged. *)
Theorem start_rejects_invalid_configuration ex :
  (invalid ex →
   ∃ f st, validateInputs ex = inl f
     ∧ step Start (init ex) = Some st
     ∧ rejected st = Some (InvalidConfig f)
     ∧ returned st = None
     ∧ handlerCalls st = [] ∧ heap st = []
     ∧ ∀ ev, step ev st = None)
  ∧ (valid ex → validateInputs ex = inr ex).
Proof.
  split; [|apply validateInputs_valid].
  intros [f Hf]%validateInputs_invalid.
  exists f, (set_control (Finished (Rejected (InvalidConfig f))) (init ex)).
  split_and!; try done.
  - simpl. unfold start. simpl. by rewrite Hf.
  - apply rejected_unused_stuck.
Qed.

(** C7, as the code has it.  [validateInputs] throws the error of the
    concurrency exactly when the handler is a function and the
    concurrency is not a number that is at least 1; a finite number
    passes the test exactly when it is at least 1, whether it is an
    integer or not, and so does [Infinity]. *)
Theorem concurrency_validation ex :
  ((∃ v ty, validateInputs ex = inl (ConcurrencyInvalid v ty))
   ↔ typeof (handler ex) = "function"%string
     ∧ number_ge_1 (concurrency ex) = false)
  ∧ (∀ q : Q, number_ge_1 (@JNumber T unit (Num q)) = true ↔ (1 <= q)%Q)
  ∧ number_ge_1 (@JNumber T unit PosInfinity) = true.
Proof.
  split_and!.
  - unfold validateInputs. split.
    + intros (v & ty & Hv).
      destruct (String.eqb (typeof (handler ex)) "function") eqn:Hh;
        simpl in Hv; [|done].
      apply String.eqb_eq in Hh. split; [done|].
      destruct (number_ge_1 (concurrency ex)); [|done]. simpl in Hv.
      repeat case_match; simplify_eq.
    + intros [Hh Hc]. apply String.eqb_eq in Hh. rewrite Hh, Hc. simpl.
      by eexists _, _.
  - intros q. simpl. apply Qle_bool_iff.
  - done.
Qed.
End Configuration.

(** C6, witness: a concurrency of 0 is rejected, and the pool of the
    items ["a"] and ["b"] with a concurrency of 10 is valid. *)
Lemma start_rejects_invalid_configuration_witness :
  (∃ f st, validateInputs pool_zero = inl f
     ∧ step Start (init pool_zero) = Some st
     ∧ rejected st = Some (InvalidConfig f)
     ∧ returned st = None
     ∧ handlerCalls st = [] ∧ heap st = []
     ∧ ∀ ev, step ev st = None)
  ∧ validateInputs pool_ab = inr pool_ab.
Proof.
  split.
  - apply (proj1 (start_rejects_invalid_configuration pool_zero)).
    right. left. reflexivity.
  - apply (proj2 (start_rejects_invalid_configuration pool_ab)).
    split_and!; [reflexivity..|]. intros H. discriminate H.
Defined.

(** The scenarios of a concurrency of [-1] and of [NaN], of items that
    are not an array, of a handler that is not a function and of an
    error handler that is a string. *)
Example start_rejects_examples :
  validateInputs
    (pool (JNumber (Num (-1))) (JArray ["a"]) (JFunction demo_handler)
       JUndefined)
  = inl (ConcurrencyInvalid (JNumber (Num (-1))) "number")
  ∧ validateInputs
      (pool (JNumber NaN) (JArray ["a"]) (JFunction demo_handler) JUndefined)
    = inl (ConcurrencyInvalid (JNumber NaN) "number")
  ∧ validateInputs
      (pool (JNumber (Num 2)) (JString "ab") (JFunction demo_handler)
         JUndefined)
    = inl (ItemsNotArray "string")
  ∧ validateInputs
      (pool (JNumber (Num 2)) (JArray ["a"]) JObject JUndefined)
    = inl HandlerNotFunction
  ∧ validateInputs
      (pool (JNumber (Num 2)) (JArray ["a"]) (JFunction demo_handler)
         (JString "log"))
    = inl (ErrorHandlerNotFunction "string").
Proof. repeat split. Qed.

(** C7, counterexample: a concurrency of 1.5 is not a positive integer
    and passes [validateInputs]. *)
Lemma fraction_passes_validation :
  ¬ positive_integer (concurrency pool_fraction)
  ∧ validateInputs pool_fraction = inr pool_fraction.
Proof.
  split; [|reflexivity].
  intros (z & Hz & q & Hq & Heq). simpl in Hq. injection Hq as <-.
  unfold Qeq in Heq. simpl in Heq. lia.
Qed.

(** ** What a run records *)

Section Records.
Context {T R E : Type}.
Implicit Types (cfg ex : PromisePoolExecutor T R E) (st : @State T R E).
Implicit Types (t : TaskRef).

(** [start] gets past [validateInputs] only with a valid configuration. *)
Lemma started_validated cfg evs st :
  unused cfg → run evs (init cfg) = Some st →
  match control st with
  | NotStarted => True
  | AwaitingSlot _ _ _ _ | AwaitingDrain _ | Finished Fulfilled =>
      validateInputs cfg = inr cfg
  | Finished (Rejected _) => True
  end.
Proof.
  intros Hu Hr.
  apply (run_invariant (λ s, Wf cfg s ∧
    match control s with
    | NotStarted => True
    | AwaitingSlot _ _ _ _ | AwaitingDrain _ | Finished Fulfilled =>
        validateInputs cfg = inr cfg
    | Finished (Rejected _) => True
    end) evs (init cfg) st); [| |done].
  - intros ev s s' [Hwf Hval] Hs. split; [by eapply Wf_step|].
    destruct ev as [|t|t|].
    + simpl in Hs. destruct (control s) eqn:Hc; simplify_eq. unfold start.
      destruct (validateInputs (this s)) as [f|ex] eqn:Hv; [done|].
      assert (validateInputs cfg = inr cfg) as Hcfg.
      { apply validateInputs_inr in Hv as Heq. subst ex.
        destruct (wf_config _ _ Hwf) as (Hi & Hcc & Hhd & He).
        unfold validateInputs in *. rewrite <- Hi, <- Hcc, <- Hhd, <- He.
        repeat case_match; simplify_eq; done. }
      unfold process. destruct (items _); simpl; try done.
      generalize (set_this ex s). clear -Hcfg.
      induction (entries xs) as [|[i x] rest IH]; intros s0; simpl; [done|].
      destruct (hasReachedConcurrencyLimit (this s0)); [done|]. apply IH.
    + apply React_effect in Hs as (x & o & ts' & _ & _ & _ & _ & _ & Hcase).
      assert (control s' = control s ∨ ∃ r, control s' = notify t r (control s))
        as [->|[r ->]]; [|done|by destruct (control s)].
      destruct Hcase
        as [[_ ->]|[[_ ->]|(_ & _ & [(? & _ & ->)|(? & _ & ->)])]]; eauto.
    + simpl in Hs. destruct (heap s !! t) as [[| |]|]; simplify_eq. simpl.
      by destruct (control s).
    + simpl in Hs. unfold resume in Hs.
      destruct (control s) as [|i x rest race|all|r] eqn:Hc; try done.
      * destruct (winner race) as [[|e]|]; simplify_eq; [|done].
        generalize (startProcessing x i s). clear -Hval.
        induction rest as [|[j y] rest IH]; intros s0; simpl; [done|].
        destruct (hasReachedConcurrencyLimit (this s0)); [done|]. apply IH.
      * destruct (rejection all), (awaited all); by simplify_eq.
  - split; [by apply Wf_init|done].
Qed.

Lemma returned_Some st rv :
  returned st = Some rv →
  control st = Finished Fulfilled
  ∧ rv_results rv = results (this st) ∧ rv_errors rv = errors (this st).
Proof.
  unfold returned. destruct (control st) as [| | |[|e]]; intros; by simplify_eq.
Qed.

(** Once [start] is fulfilled every item has been admitted and every
    task has completed, each of them once. *)
Lemma completed_all cfg evs st :
  unused cfg → run evs (init cfg) = Some st →
  control st = Finished Fulfilled →
  completed st ≡ₚ seq 0 (length (the_items cfg))
  ∧ length (heap st) = length (the_items cfg)
  ∧ items cfg = JArray (the_items cfg).
Proof.
  intros Hu Hr Hc.
  destruct (Inv_run _ _ _ Hu Hr) as [Hwf [_ Hctl]].
  pose proof (started_validated _ _ _ Hu Hr) as Hv.
  rewrite Hc in Hctl, Hv. destruct Hctl as [Hlen Hnil].
  split_and!; [|done|].
  - apply NoDup_Permutation; [apply Hwf|apply NoDup_seq|].
    intros t. rewrite (wf_completed _ _ Hwf), elem_of_seq, Hnil, Hlen.
    split; [intros [? _]; lia|]. intros [_ ?]. split; [lia|].
    apply not_elem_of_nil.
  - destruct (validateInputs_number _ _ Hv) as (_ & _ & [xs Hxs] & _).
    unfold the_items. by rewrite Hxs.
Qed.

Lemma success_or_failure cfg t :
  t < length (the_items cfg) →
  (is_Some (success_of cfg t) ∧ failure_of cfg t = None)
  ∨ (success_of cfg t = None ∧ is_Some (failure_of cfg t)).
Proof.
  intros [x Hx]%lookup_lt_is_Some. unfold success_of, failure_of.
  rewrite Hx. simpl. destruct (createTaskFor x t cfg); [left|right]; eauto.
Qed.

Lemma length_omap_success_failure cfg (l : list nat) :
  (∀ t, t ∈ l → t < length (the_items cfg)) →
  length (omap (success_of cfg) l) + length (omap (failure_of cfg) l)
  = length l.
Proof.
  induction l as [|t l IH]; intros Hl; [done|].
  specialize (IH (λ u Hu, Hl u (list_elem_of_further _ _ _ Hu))).
  unfold omap in *. simpl.
  destruct (success_or_failure cfg t) as [[[r ->] ->]|[-> [p ->]]];
    [apply Hl, list_elem_of_here|simpl; lia..].
Qed.

Lemma omap_pointwise {A B} (f g : A → option B) (l : list A) :
  (∀ a, f a = g a) → omap f l = omap g l.
Proof.
  intros Hfg. induction l as [|a l IH]; [done|].
  unfold omap in *. simpl. by rewrite Hfg, IH.
Qed.

Lemma createTaskFor_function cfg f x i :
  handler cfg = JFunction f → createTaskFor x i cfg = f x i.
Proof. intros Hf. unfold createTaskFor. by rewrite Hf. Qed.

Lemma success_of_function cfg f t :
  handler cfg = JFunction f →
  success_of cfg t = result_of f (the_items cfg) t
  ∧ failure_of cfg t = error_of f (the_items cfg) t.
Proof.
  intros Hf. unfold success_of, failure_of, result_of, error_of.
  destruct (the_items cfg !! t) as [x|]; [|done]. simpl.
  by rewrite (createTaskFor_function _ f).
Qed.

(** The reactions of a task run once: a task that has completed is
    never running again. *)
Lemma completed_process_from es st :
  completed (process_from es st) = completed st.
Proof.
  revert st. induction es as [|[i x] rest IH]; intros st; simpl; [done|].
  destruct (hasReachedConcurrencyLimit (this st)); [done|]. by rewrite IH.
Qed.

Lemma completed_step ev st st' t :
  step ev st = Some st' → t ∈ completed st → t ∈ completed st'.
Proof.
  intros Hs Hin. destruct ev as [|u|u|].
  - simpl in Hs. destruct (control st); simplify_eq. unfold start.
    destruct (validateInputs (this st)); [done|]. unfold process.
    destruct (items _); try done. by rewrite completed_process_from.
  - apply React_effect in Hs as (x & o & ts' & _ & _ & _ & _ & -> & _).
    apply elem_of_app. by left.
  - simpl in Hs. destruct (heap st !! u) as [[| |]|]; by simplify_eq.
  - simpl in Hs. unfold resume in Hs.
    destruct (control st) as [|i x rest race|all|r]; try done.
    + destruct (winner race) as [[|e]|]; simplify_eq; [|done].
      by rewrite completed_process_from.
    + destruct (rejection all), (awaited all); by simplify_eq.
Qed.

Lemma React_once cfg st t evs st' :
  Wf cfg st → t ∈ completed st → run evs st = Some st' →
  step (React t) st' = None.
Proof.
  intros Hwf Hin Hr.
  assert (Wf cfg st' ∧ t ∈ completed st') as [Hwf' Hin'].
  { apply (run_invariant (λ s, Wf cfg s ∧ t ∈ completed s) evs st st');
      [|done|done].
    intros ev s s' [Hw Hc] Hs. split; [by eapply Wf_step|].
    by eapply completed_step. }
  apply (wf_completed _ _ Hwf') in Hin' as [_ Hnot]. simpl.
  destruct (heap st' !! t) as [[x o| |]|] eqn:Hl; try done.
  exfalso. apply Hnot, (wf_tasks _ _ Hwf'). eauto.
Qed.


Lemma onRejected_no_handler st t e x :
  has_errorHandler (this st) = false →
  errors (this (onRejected t e x st)) = errors (this st) ++ [createFrom e x]
  ∧ results (this (onRejected t e x st)) = results (this st)
  ∧ heap (onRejected t e x st) = <[t := Settled Fulfilled]> (heap st)
  ∧ control (onRejected t e x st) = notify t Fulfilled (control st)
  ∧ tasks (this (onRejected t e x st))
    = splice1 (indexOf t (tasks (this st))) (tasks (this st))
  ∧ same_config (this (onRejected t e x st)) (this st).
Proof.
  intros Heh. unfold onRejected. cbn. fold (has_errorHandler (this st)).
  rewrite Heh. by repeat split.
Qed.

(** C9. The results and the errors are in the order in which the tasks
    complete, not in the order of the input: they are the contributions
    of the tasks in the order in which their reactions ran, and of two
    running tasks the one admitted later, if it completes first, is
    recorded first. *)
Theorem recorded_in_completion_order cfg evs st :
  unused cfg → run evs (init cfg) = Some st →
  results (this st) = omap (success_of cfg) (completed st)
  ∧ errors (this st) =
      (if has_errorHandler cfg then []
       else pool_error <$> omap (failure_of cfg) (completed st))
  ∧ (∀ t1 t2 x1 x2 r1 r2, t1 < t2 →
       heap st !! t1 = Some (Running x1 (Resolves r1)) →
       heap st !! t2 = Some (Running x2 (Resolves r2)) →
       ∃ st', run [React t2; React t1] st = Some st'
         ∧ results (this st') = results (this st) ++ [r2; r1])
  ∧ (has_errorHandler cfg = false →
     ∀ t1 t2 x1 x2 e1 e2, t1 < t2 →
       heap st !! t1 = Some (Running x1 (Rejects e1)) →
       heap st !! t2 = Some (Running x2 (Rejects e2)) →
       ∃ st', run [React t2; React t1] st = Some st'
         ∧ errors (this st') = errors (this st)
             ++ [createFrom e2 x2; createFrom e1 x1]).
Proof.
  intros Hu Hr. destruct (Inv_run _ _ _ Hu Hr) as [Hwf _].
  split_and!; [apply Hwf..| |].
  - intros t1 t2 x1 x2 r1 r2 Hlt H1 H2.
    exists (onFulfilled t1 r1 (onFulfilled t2 r2 st)). split.
    + simpl. rewrite H2. simpl.
      rewrite list_lookup_insert_ne by lia. by rewrite H1.
    + simpl. by rewrite <- app_assoc.
  - intros Heh t1 t2 x1 x2 e1 e2 Hlt H1 H2.
    assert (has_errorHandler (this st) = false) as Heh'.
    { by rewrite (has_errorHandler_config _ cfg) by apply Hwf. }
    destruct (onRejected_no_handler st t2 e2 x2 Heh')
      as (He2 & _ & Hh2 & _ & _ & Hcfg2).
    assert (has_errorHandler (this (onRejected t2 e2 x2 st)) = false) as Heh''.
    { by rewrite (has_errorHandler_config _ (this st)). }
    destruct (onRejected_no_handler _ t1 e1 x1 Heh'') as (He1 & _).
    exists (onRejected t1 e1 x1 (onRejected t2 e2 x2 st)). split.
    + simpl. rewrite H2. simpl. rewrite Hh2.
      rewrite list_lookup_insert_ne by lia. by rewrite H1.
    + by rewrite He1, He2, <- app_assoc.
Qed.

(** C2. Without an error handler, when [start ()] is fulfilled each item
    has contributed one entry to exactly one of the two arrays of the
    returned object: the tasks completed in some order in which every
    index occurs once, a task that succeeded added its value to
    [results], one that failed added its error to [errors], and
    [results.length + errors.length] is [items.length]. *)
Theorem every_item_recorded_once cfg evs st rv :
  unused cfg → has_errorHandler cfg = false →
  run evs (init cfg) = Some st → returned st = Some rv →
  items cfg = JArray (the_items cfg)
  ∧ length (rv_results rv) + length (rv_errors rv) = length (the_items cfg)
  ∧ ∃ order,
      order ≡ₚ seq 0 (length (the_items cfg))
      ∧ rv_results rv = omap (success_of cfg) order
      ∧ rv_errors rv = pool_error <$> omap (failure_of cfg) order
      ∧ ∀ t, t ∈ order →
          (is_Some (success_of cfg t) ∧ failure_of cfg t = None)
          ∨ (success_of cfg t = None ∧ is_Some (failure_of cfg t)).
Proof.
  intros Hu Heh Hr (Hc & -> & ->)%returned_Some.
  destruct (Inv_run _ _ _ Hu Hr) as [Hwf _].
  destruct (completed_all _ _ _ Hu Hr Hc) as (Hperm & Hlen & Hitems).
  pose proof (wf_results _ _ Hwf) as Hres.
  pose proof (wf_errors _ _ Hwf) as Herr. rewrite Heh in Herr.
  assert (∀ t, t ∈ completed st → t < length (the_items cfg)) as Hlt.
  { intros t. rewrite Hperm, elem_of_seq. lia. }
  split_and!; [done| |].
  - rewrite Hres, Herr, length_fmap, length_omap_success_failure by done.
    by rewrite Hperm, length_seq.
  - exists (completed st). split_and!; [done..|].
    intros t Ht. by apply success_or_failure, Hlt.
Qed.

(** C4. With an error handler nothing is ever appended to [errors], and
    the error handler is called once for each task that failed, with
    the error and the item of the task.  The calls are the failures of
    the completed tasks in the order of completion; the reaction of a
    failing task applies the error handler to the error that the
    handler raised for the item and to the item (the task ends as this
    call completes: fulfilled when it returns, rejected when it raises,
    following the promise it returns), the reaction of a succeeding
    task does not involve it, and no task reacts twice; when
    [start ()] is fulfilled the calls are the failures of all the
    items. *)
Theorem error_handler_called_once_per_failure cfg evs st :
  unused cfg → has_errorHandler cfg = true →
  run evs (init cfg) = Some st →
  errors (this st) = []
  ∧ errorHandlerCalls st = omap (failure_of cfg) (completed st)
  ∧ NoDup (completed st)
  ∧ (∀ t x e st', heap st !! t = Some (Running x (Rejects e)) →
       step (React t) st = Some st' →
       errorHandlerCalls st' = errorHandlerCalls st ++ [(e, x)]
       ∧ errors (this st') = [])
  ∧ (∀ t x r st', heap st !! t = Some (Running x (Resolves r)) →
       step (React t) st = Some st' →
       errorHandlerCalls st' = errorHandlerCalls st
       ∧ errors (this st') = [])
  ∧ (∀ rv, returned st = Some rv →
       rv_errors rv = []
       ∧ errorHandlerCalls st
         ≡ₚ omap (failure_of cfg) (seq 0 (length (the_items cfg))))
  ∧ (∀ f g, handler cfg = JFunction f → errorHandler cfg = JFunction g →
       (∀ t x e st', heap st !! t = Some (Running x (Rejects e)) →
          step (React t) st = Some st' →
          the_items cfg !! t = Some x ∧ f x t = Rejects e
          ∧ heap st' !! t = Some (task_after (g e x)))
       ∧ (∀ t x r st', heap st !! t = Some (Running x (Resolves r)) →
            step (React t) st = Some st' →
            heap st' !! t = Some (Following Fulfilled))
       ∧ errorHandlerCalls st
         = omap (error_of f (the_items cfg)) (completed st)
       ∧ (∀ rv, returned st = Some rv →
            errorHandlerCalls st
            ≡ₚ omap (error_of f (the_items cfg))
                 (seq 0 (length (the_items cfg)))))
  ∧ (∀ t st' evs' st'', step (React t) st = Some st' →
       run evs' st' = Some st'' → step (React t) st'' = None).
Proof.
  intros Hu Heh Hr. destruct (Inv_run _ _ _ Hu Hr) as [Hwf _].
  pose proof (wf_errors _ _ Hwf) as Herr. rewrite Heh in Herr.
  pose proof (wf_errorHandlerCalls _ _ Hwf) as Hcalls. rewrite Heh in Hcalls.
  assert (∀ t x o st', heap st !! t = Some (Running x o) →
            step (React t) st = Some st' →
            errorHandlerCalls st' = errorHandlerCalls st
              ++ match o with Resolves _ => [] | Rejects e => [(e, x)] end
            ∧ errors (this st') = []) as Hstep.
  { intros t x o st' Hl Hs.
    pose proof (Wf_step _ _ _ _ Hwf Hs) as Hwf'.
    pose proof (wf_errors _ _ Hwf') as Herr'. rewrite Heh in Herr'.
    pose proof (wf_errorHandlerCalls _ _ Hwf') as Hcalls'.
    rewrite Heh in Hcalls'. split; [|done].
    apply React_effect in Hs as (? & ? & ? & _ & _ & _ & _ & Hcompl & _).
    rewrite Hcalls', Hcompl, omap_app, <- Hcalls. f_equal. simpl.
    destruct (success_of_running _ _ _ _ _ Hwf Hl) as [_ ->].
    by destruct o. }
  assert (∀ rv, returned st = Some rv →
            errorHandlerCalls st
            ≡ₚ omap (failure_of cfg) (seq 0 (length (the_items cfg))))
    as Hall.
  { intros rv (Hc & _ & _)%returned_Some.
    destruct (completed_all _ _ _ Hu Hr Hc) as (Hperm & _).
    by rewrite Hcalls, Hperm. }
  split_and!; [done|done|apply Hwf| | | | |].
  - intros t x e st' Hl Hs. apply (Hstep t x (Rejects e) st' Hl Hs).
  - intros t x r st' Hl Hs.
    destruct (Hstep t x (Resolves r) st' Hl Hs) as [-> ?].
    by rewrite app_nil_r.
  - intros rv Hrv. split; [|by apply Hall with rv].
    by apply returned_Some in Hrv as (_ & _ & ->).
  - intros f g Hf Hg. split_and!.
    + intros t x e st' Hl Hs.
      destruct (wf_running _ _ Hwf _ _ _ Hl) as [Hx Ho].
      rewrite (createTaskFor_function _ f) in Ho by done.
      split_and!; [done..|].
      apply lookup_lt_Some in Hl as Hlt.
      simpl in Hs. rewrite Hl in Hs. injection Hs as <-.
      assert (errorHandler (this st) = JFunction g) as Hg'.
      { destruct (wf_config _ _ Hwf) as (_ & _ & _ & ->). done. }
      unfold onRejected. cbn. rewrite Hg'. cbn.
      unfold call_errorHandler. cbn. rewrite Hg'.
      destruct (g e x); simpl; by rewrite list_lookup_insert_eq.
    + intros t x r st' Hl Hs. apply lookup_lt_Some in Hl as Hlt.
      simpl in Hs. rewrite Hl in Hs. injection Hs as <-. simpl.
      by rewrite list_lookup_insert_eq.
    + rewrite Hcalls. apply omap_pointwise.
      intros t. by apply success_of_function.
    + intros rv Hrv. rewrite (Hall rv Hrv).
      erewrite omap_pointwise; [done|].
      intros t. by apply success_of_function.
  - intros t st' evs' st'' Hs Hr'.
    apply (React_once cfg st' t evs' st''); [by eapply Wf_step| |done].
    apply React_effect in Hs as (? & ? & ? & _ & _ & _ & _ & -> & _).
    apply elem_of_app. right. apply list_elem_of_here.
Qed.
End Records.

(** ** The concurrency bound *)

Lemma within_integral_ceiling (c : JsNumber) (n : nat) :
  num_ge c (Num 1) = true →
  (∀ q, c = Num q → is_integer q) →
  n = 0 ∨ num_ge (num_of_length (n - 1)) c = false →
  num_ge c (num_of_length n) = true.
Proof.
  intros Hge Hint Hn. destruct c as [|q| |]; simpl in *; try done.
  destruct (Hint q eq_refl) as [z Hz].
  apply Qle_bool_iff in Hge. apply Qle_bool_iff. rewrite Hz in Hge |- *.
  rewrite <- Zle_Qle. change 1%Q with (inject_Z 1) in Hge.
  rewrite <- Zle_Qle in Hge.
  destruct Hn as [->|Hn]; [simpl; lia|].
  apply not_true_iff_false in Hn. rewrite Qle_bool_iff, Hz, <- Zle_Qle in Hn.
  lia.
Qed.

Section Bound.
Context {T R E : Type}.
Implicit Types (cfg ex : PromisePoolExecutor T R E) (st : @State T R E).
Implicit Types (t : TaskRef).

(** Within a job of [start] the active count only grows. *)
Lemma process_from_activeCount es st :
  activeCount (this st) ≤ activeCount (this (process_from es st)).
Proof.
  revert st. induction es as [|[i x] rest IH]; intros st; simpl; [done|].
  destruct (hasReachedConcurrencyLimit (this st)); [done|].
  etrans; [|apply IH]. unfold activeCount. simpl. rewrite length_app. lia.
Qed.

(** C1, as the code has it.  In a run with a validated concurrency [C]
    the active count is 0 or was reached by an admission made while the
    count was below [C], so that it is below [C + 1] at every instant;
    when [C] is an integer (or [Infinity]) the count never exceeds [C].
    Within a job of [start] the count only grows, so that the bound at
    the end of the job holds throughout it.  The loop suspends whenever the count has reached [C] and is only
    suspended then, and when the suspension ends it starts the one item
    it was suspended for before it tests the limit again. *)
Theorem active_count_bounded cfg evs st :
  unused cfg → validateInputs cfg = inr cfg →
  run evs (init cfg) = Some st →
  started_below_limit cfg (activeCount (this st))
  ∧ (integral_ceiling cfg → within_ceiling cfg (activeCount (this st)) = true)
  ∧ (∀ es (s : @State T R E),
       activeCount (this s) ≤ activeCount (this (process_from es s)))
  ∧ (∀ i x rest (s : @State T R E),
       hasReachedConcurrencyLimit (this s) = true →
       process_from ((i, x) :: rest) s = processingSlot i x rest s)
  ∧ (∀ i x rest race, control st = AwaitingSlot i x rest race →
       limit_reached cfg (length (contenders race)) = true
       ∧ length (heap st) = i)
  ∧ (∀ i x rest race st', control st = AwaitingSlot i x rest race →
       step Resume st = Some st' →
       (winner race = Some Fulfilled
        ∧ limit_reached cfg (activeCount (this st)) = false
        ∧ activeCount (this (startProcessing x i st))
          = S (activeCount (this st))
        ∧ st' = process_from rest (startProcessing x i st))
       ∨ (∃ e, winner race = Some (Rejected e)
          ∧ rejected st' = Some e ∧ heap st' = heap st)).
Proof.
  intros Hu Hv Hr. destruct (Inv_run _ _ _ Hu Hr) as [Hwf [Hb Hctl]].
  split_and!.
  - done.
  - intros Hint. unfold within_ceiling.
    destruct (validateInputs_number _ _ Hv) as (_ & (c & Hc & Hge) & _).
    rewrite Hc. apply within_integral_ceiling; [done| |].
    + intros q ->. by apply Hint.
    + unfold started_below_limit, limit_reached in Hb. by rewrite Hc in Hb.
  - apply process_from_activeCount.
  - intros i x rest s Hlim. simpl. by rewrite Hlim.
  - intros i x rest race Hc. rewrite Hc in Hctl.
    destruct Hctl as (_ & _ & _ & _ & Hreach & _). split; [done|].
    pose proof (wf_position _ _ Hwf _ _ _ _ Hc) as Hd.
    by apply drop_entries in Hd as (-> & _).
  - intros i x rest race st' Hc Hs. simpl in Hs. unfold resume in Hs.
    rewrite Hc in Hs, Hctl.
    destruct Hctl as (_ & _ & Hwin & _ & _ & Hbc).
    destruct (winner race) as [[|e]|] eqn:Hw; simplify_eq.
    + left. split_and!;
        [done| |by unfold activeCount; simpl; rewrite length_app, Nat.add_1_r
        |done].
      specialize (Hwin ltac:(by eexists)).
      destruct Hbc as [Hz|Hbc]; [lia|].
      apply limit_reached_mono with (length (contenders race) - 1);
        [unfold activeCount; lia|done].
    + right. exists e. split_and!; [done|simpl|done]. unfold rejected. done.
Qed.
End Bound.

(** C1, counterexample: with a concurrency of 1.5, which passes the
    validation, two tasks are active after [start] has run up to its
    first [await], and 2 exceeds 1.5. *)
Lemma fraction_ceiling_exceeded :
  validateInputs pool_fraction = inr pool_fraction
  ∧ ∃ st, run [Start] (init pool_fraction) = Some st
      ∧ activeCount (this st) = 2
      ∧ within_ceiling pool_fraction (activeCount (this st)) = false.
Proof.
  split; [vm_compute; reflexivity|].
  eexists. split; [vm_compute; reflexivity|].
  split; vm_compute; reflexivity.
Qed.

(** C1, witness: the pool of three items with a concurrency of 2, after
    the first two tasks have completed and the third has been admitted. *)
Lemma active_count_bounded_witness :
  ∃ st, run [Start; React 1; React 0; Resume] (init pool_abc_quiet) = Some st
    ∧ within_ceiling pool_abc_quiet (activeCount (this st)) = true.
Proof.
  eexists. split; [vm_compute; reflexivity|].
  refine (proj1 (proj2 (active_count_bounded pool_abc_quiet
    [Start; React 1; React 0; Resume] _ _ _ _)) _).
  - by repeat split.
  - vm_compute; reflexivity.
  - vm_compute; reflexivity.
  - intros q [= <-]. by exists 2%Z.
Defined.

(** ** Failures and the error handler *)

Section Failures.
Context {T R E : Type}.
Implicit Types (cfg ex : PromisePoolExecutor T R E) (st : @State T R E).
Implicit Types (t : TaskRef).

(** Without an error handler, the arrays of a fulfilled [start] account
    for every item. *)
Lemma fulfilled_accounts cfg evs st :
  unused cfg → has_errorHandler cfg = false →
  run evs (init cfg) = Some st → control st = Finished Fulfilled →
  length (results (this st)) + length (errors (this st))
    = length (the_items cfg)
  ∧ ∀ t x e, the_items cfg !! t = Some x →
      createTaskFor x t cfg = Rejects e →
      createFrom e x ∈ errors (this st).
Proof.
  intros Hu Heh Hr Hc. destruct (Inv_run _ _ _ Hu Hr) as [Hwf _].
  destruct (completed_all _ _ _ Hu Hr Hc) as (Hperm & Hlen & Hitems).
  pose proof (wf_results _ _ Hwf) as Hres.
  pose proof (wf_errors _ _ Hwf) as Herr. rewrite Heh in Herr.
  split.
  - rewrite Hres, Herr, length_fmap, length_omap_success_failure.
    + by rewrite Hperm, length_seq.
    + intros t. rewrite Hperm, elem_of_seq. lia.
  - intros t x e Hx Ho. rewrite Herr.
    apply (list_elem_of_fmap_2 pool_error _ (e, x)).
    apply list_elem_of_omap. exists t. split.
    + rewrite Hperm, elem_of_seq. apply lookup_lt_Some in Hx. lia.
    + unfold failure_of. rewrite Hx. simpl. by rewrite Ho.
Qed.

(** C3. Without an error handler, the reaction of a task whose handler
    raised appends the error wrapped with the item to [errors] and
    leaves the other tasks as they are, running and active; [start] is
    never rejected; the run is never stuck before [start] is settled,
    is over after at most three jobs for each item and three more, and
    can always be carried on until [start] is fulfilled; and when
    [start] is settled it is fulfilled with the object whose
    arrays hold one entry for each item, among which the wrapped error
    of every item that failed. *)
Theorem failure_collected_run_continues cfg evs st :
  unused cfg → validateInputs cfg = inr cfg → has_errorHandler cfg = false →
  run evs (init cfg) = Some st →
  (∀ t x e, heap st !! t = Some (Running x (Rejects e)) →
     ∃ st', step (React t) st = Some st'
       ∧ errors (this st') = errors (this st) ++ [createFrom e x]
       ∧ results (this st') = results (this st)
       ∧ (∀ t', t' ≠ t → heap st' !! t' = heap st !! t')
       ∧ (∀ t', t' ≠ t → t' ∈ tasks (this st) → t' ∈ tasks (this st'))
       ∧ rejected st' = None)
  ∧ rejected st = None
  ∧ ((∀ s, control st ≠ Finished s) → ∃ ev st', step ev st = Some st')
  ∧ length evs ≤ 3 * length (the_items cfg) + 3
  ∧ (∃ evs' st' rv, run evs' st = Some st' ∧ returned st' = Some rv)
  ∧ (∀ s, control st = Finished s →
       ∃ rv, returned st = Some rv
         ∧ length (rv_results rv) + length (rv_errors rv)
           = length (the_items cfg)
         ∧ ∀ t x e, the_items cfg !! t = Some x →
             createTaskFor x t cfg = Rejects e →
             createFrom e x ∈ rv_errors rv).
Proof.
  intros Hu Hv Heh Hr. destruct (Inv_run _ _ _ Hu Hr) as [Hwf Hctl].
  pose proof (no_errorHandler_gentle _ Heh) as Hg.
  pose proof (Calm_run _ _ _ Hu Hv Hg Hr) as Hq.
  assert (∀ s : @State T R E, Calm s → rejected s = None) as Hrej.
  { intros s [_ Hs]. unfold rejected.
    by destruct (control s) as [| | |[|e]]. }
  split_and!.
  - intros t x e Hl.
    assert (step (React t) st = Some (onRejected t e x st)) as Hs.
    { simpl. by rewrite Hl. }
    assert (has_errorHandler (this st) = false) as Heh'.
    { by rewrite (has_errorHandler_config _ cfg) by apply Hwf. }
    destruct (onRejected_no_handler st t e x Heh')
      as (He & Hres & Hheap & _ & Htasks & _).
    exists (onRejected t e x st). split_and!; [done..| | |].
    + intros t' Hne. by rewrite Hheap, list_lookup_insert_ne.
    + intros t' Hne Hin. rewrite Htasks, splice1_indexOf.
      * by apply list_elem_of_filter.
      * apply Hwf.
      * apply (wf_tasks _ _ Hwf). eauto.
    + apply Hrej. by eapply Calm_step.
  - by apply Hrej.
  - by apply progress with cfg.
  - by apply run_bounded with st.
  - destruct (run_completes cfg st Hv Hwf Hctl) as (evs' & st' & Hr' & s & Hc).
    assert (run (evs ++ evs') (init cfg) = Some st') as Hrr.
    { by rewrite run_app, Hr. }
    destruct (Calm_run _ _ _ Hu Hv Hg Hrr) as [_ Hq']. rewrite Hc in Hq'.
    destruct s as [|e]; [|done].
    eexists evs', st', _. split; [done|]. unfold returned. by rewrite Hc.
  - intros s Hc. destruct Hq as [_ Hq]. rewrite Hc in Hq.
    destruct s as [|e]; [|done].
    destruct (fulfilled_accounts _ _ _ Hu Heh Hr Hc) as [Hlen Hin].
    eexists. split; [unfold returned; by rewrite Hc|]. by split.
Qed.
End Failures.

Section ErrorHandlerRaises.
Context {T R E : Type}.
Implicit Types (cfg ex : PromisePoolExecutor T R E) (st : @State T R E).
Implicit Types (t : TaskRef) (e : Thrown T E).

Lemma doomed_notify e st st' :
  doomed e st →
  control st' = control st ∨ (∃ t s, control st' = notify t s (control st)) →
  doomed e st'.
Proof.
  unfold doomed. intros Hd [->|(t & s & ->)]; [done|].
  destruct (control st) as [|i x rest race|all|r]; simpl; try done.
  - unfold race_notify. by rewrite Hd.
  - unfold all_notify. by rewrite Hd.
Qed.

Lemma doomed_step e ev st st' :
  doomed e st → step ev st = Some st' → doomed e st'.
Proof.
  intros Hd Hs. destruct ev as [|t|t|].
  - simpl in Hs. unfold doomed in Hd.
    destruct (control st); by simplify_eq.
  - apply React_effect in Hs as (x & o & ts' & _ & _ & _ & _ & _ & Hcase).
    apply (doomed_notify e st); [done|].
    destruct Hcase
      as [[_ ->]|[[_ ->]|(_ & _ & [(? & _ & ->)|(? & _ & ->)])]]; eauto.
  - simpl in Hs. destruct (heap st !! t) as [[| |]|]; simplify_eq.
    apply (doomed_notify e st); [done|]. right. by eexists _, _.
  - simpl in Hs. unfold resume in Hs. unfold doomed in *.
    destruct (control st) as [|i x rest race|all|r]; try done.
    + rewrite Hd in Hs. by simplify_eq.
    + rewrite Hd in Hs. by simplify_eq.
Qed.

Lemma doomed_run e evs st st' :
  doomed e st → run evs st = Some st' → doomed e st'.
Proof.
  intros Hd. apply (run_invariant (doomed e)); [|done].
  intros ev s s'. apply doomed_step.
Qed.

Lemma doomed_rejects e st :
  doomed e st → returned st = None ∧ rejects_with e st.
Proof.
  unfold doomed, returned, rejects_with, rejected. simpl. unfold resume.
  destruct (control st) as [|i x rest race|all|r]; try done.
  - intros ->. split; [done|]. right. by eexists.
  - intros ->. split; [done|]. right. by eexists.
  - intros ->. split; [done|]. by left.
Qed.

(** The rejection of a task that the awaited promise listens to rejects
    the awaited promise. *)
Lemma doomed_settle e st st0 t :
  observed st0 t → control st = control st0 →
  doomed e (settle t (Rejected e) st).
Proof.
  unfold observed, doomed. simpl. intros Ho ->.
  destruct (control st0) as [|i x rest race|all|r]; simpl; try done.
  - destruct Ho as [Hw Hin]. unfold race_notify. rewrite Hw.
    by rewrite decide_True.
  - destruct Ho as [Hr Hin]. unfold all_notify. rewrite Hr.
    by rewrite decide_True.
Qed.

(** X10. The paths on which an error raised by the error handler
    reaches the caller.  When the error handler raises for a task
    while [start] is suspended and the promise it awaits is still
    pending (no task of the race has settled, no task of the drain has
    been rejected), whatever happens next [start ()] returns no results
    and is rejected with that error, at the latest at its next job.
    The same holds when the promise of an asynchronous error handler is
    rejected for a task that the awaited promise listens to. *)
Theorem error_handler_raise_rejects_start cfg evs st :
  unused cfg → run evs (init cfg) = Some st →
  (∀ t x e e' g,
     errorHandler cfg = JFunction g →
     heap st !! t = Some (Running x (Rejects e)) →
     g e x = Throws e' →
     awaiting st →
     ∃ st', step (React t) st = Some st'
       ∧ ∀ evs' st'', run evs' st' = Some st'' →
           returned st'' = None ∧ rejects_with e' st'')
  ∧ (∀ t e',
       heap st !! t = Some (Following (Rejected e')) →
       observed st t →
       ∃ st', step (TaskSettles t) st = Some st'
         ∧ ∀ evs' st'', run evs' st' = Some st'' →
             returned st'' = None ∧ rejects_with e' st'').
Proof.
  intros Hu Hr. destruct (Inv_run _ _ _ Hu Hr) as [Hwf [_ Hctl]]. split.
  - intros t x e e' g Hg Hl Hthrow Haw.
    assert (errorHandler (this st) = JFunction g) as Hg'.
    { destruct (wf_config _ _ Hwf) as (_ & _ & _ & ->). done. }
    assert (observed st t) as Hobs.
    { assert (t ∈ tasks (this st)) as Hin
        by (apply (wf_tasks _ _ Hwf); eauto).
      unfold awaiting in Haw. unfold observed.
      destruct (control st) as [|i y rest race|all|r]; try done.
      - split; [done|]. destruct Hctl as [Hsub _]. by apply Hsub.
      - split; [done|]. destruct Hctl as [_ Hrej].
        destruct (Hrej Haw) as [Hsub _]. by apply Hsub. }
    eexists. split; [simpl; by rewrite Hl|].
    intros evs' st'' Hr'. apply doomed_rejects.
    apply (doomed_run e' evs' _ _) in Hr'; [done|].
    unfold onRejected. cbn. rewrite Hg'. cbn.
    unfold call_errorHandler. cbn. rewrite Hg', Hthrow.
    by apply doomed_settle with st.
  - intros t e' Hl Hobs.
    eexists. split; [simpl; by rewrite Hl|].
    intros evs' st'' Hr'. apply doomed_rejects.
    apply (doomed_run e' evs' _ _) in Hr'; [done|].
    by apply doomed_settle with st.
Qed.
End ErrorHandlerRaises.

(** C5. The claim fails on the code at the items ["a"], ["b"], ["c"]
    with a concurrency of 2, a handler that fails on ["b"] and an error
    handler that raises.  [start] is suspended on the race of the first
    two tasks.  The first task succeeds: its [then] reaction runs and
    the task is fulfilled, which wins the race.  Then the [catch]
    reaction of the second task removes the task from [this.tasks] and
    calls the error handler, which raises: the task is rejected, but
    only the race, already won, listens to it.  [start] resumes, starts
    ["c"], awaits [Promise.all] of that one task and is fulfilled with
    the results of ["a"] and ["c"]: the error raised by the error
    handler reaches nobody, where the claim has [start ()] rejected
    with it.  The [catch] reaction returns what the error handler
    returns so that its failure settles the task, and where the awaited
    promise still listens to the task [start ()] is rejected; on this
    path the error is lost because the task has left [this.tasks]
    before the call and the race that listens to it is already won. *)
Lemma error_handler_raise_swallowed :
  ∃ st,
    run [Start; React 0; TaskSettles 0; React 1; Resume;
         React 2; TaskSettles 2; Resume]
      (init pool_abc_throwing) = Some st
    ∧ errorHandlerCalls st = [(Raised "boom", "b")]
    ∧ heap st !! 1 = Some (Settled (Rejected (Raised "handler failed")))
    ∧ rejected st = None
    ∧ returned st
      = Some {| rv_results := ["a!"; "c!"]; rv_errors := [] |}.
Proof.
  eexists. split; [vm_compute; reflexivity|].
  split_and!; vm_compute; reflexivity.
Qed.

(** The same two outcomes in the other order: with the items ["b"],
    ["a"], ["c"] the [catch] reaction of the first task rejects it
    while the second task, whose [then] reaction has run, is not
    fulfilled yet; the race is rejected and so is [start ()]. *)
Example error_handler_raise_first_rejects :
  ∃ st,
    run [Start; React 1; React 0; TaskSettles 1; Resume]
      (init pool_bac_throwing) = Some st
    ∧ rejected st = Some (Raised "handler failed")
    ∧ returned st = None.
Proof.
  eexists. split; [vm_compute; reflexivity|].
  split; vm_compute; reflexivity.
Qed.

(** ** The properties on the example pools *)

(** C2, witness: ["b"] fails first, then ["a"] succeeds; one result and
    one error for two items. *)
Lemma every_item_recorded_once_witness :
  ∃ st rv,
    run [Start; React 1; React 0; TaskSettles 0; Resume] (init pool_ab)
    = Some st
    ∧ returned st = Some rv
    ∧ length (rv_results rv) + length (rv_errors rv) = 2.
Proof.
  eexists _, _. split; [vm_compute; reflexivity|].
  split; [vm_compute; reflexivity|].
  refine (proj1 (proj2 (every_item_recorded_once pool_ab
    [Start; React 1; React 0; TaskSettles 0; Resume] _ _ _ _ _ _))).
  - repeat split; reflexivity.
  - reflexivity.
  - vm_compute; reflexivity.
  - vm_compute; reflexivity.
Defined.

(** C3, witness: the scenario of the items ["a"] and ["b"] with a
    concurrency of 10 and a handler that fails on ["b"]. *)
Lemma failure_collected_run_continues_witness :
  ∃ st,
    run [Start; React 1; React 0; TaskSettles 0; Resume] (init pool_ab)
    = Some st
    ∧ rejected st = None
    ∧ ∃ rv, returned st = Some rv
        ∧ length (rv_results rv) + length (rv_errors rv) = 2
        ∧ createFrom (Raised "boom") "b" ∈ rv_errors rv.
Proof.
  eexists. split; [vm_compute; reflexivity|].
  destruct (failure_collected_run_continues pool_ab
    [Start; React 1; React 0; TaskSettles 0; Resume] _
    ltac:(repeat split; reflexivity)
    ltac:(vm_compute; reflexivity) ltac:(reflexivity)
    ltac:(vm_compute; reflexivity)) as (_ & Hrej & _ & _ & _ & Hfin).
  split; [exact Hrej|].
  destruct (Hfin Fulfilled ltac:(vm_compute; reflexivity))
    as (rv & Hrv & Hlen & Hin).
  exists rv. split; [exact Hrv|]. split; [exact Hlen|].
  apply (Hin 1 "b" (Raised "boom")); vm_compute; reflexivity.
Defined.

(** C4, witness: with an error handler that raises, the reaction of the
    failing task of ["b"] passes the error of the handler and the item
    to it, the task ends as the call does and [errors] stays empty. *)
Lemma error_handler_called_once_per_failure_witness :
  ∃ st st',
    run [Start] (init pool_abc_throwing) = Some st
    ∧ step (React 1) st = Some st'
    ∧ errors (this st') = []
    ∧ errorHandlerCalls st' = [(Raised "boom", "b")]
    ∧ heap st' !! 1
      = Some (task_after (throwing_errorHandler (Raised "boom") "b")).
Proof.
  eexists _, _. split; [vm_compute; reflexivity|].
  split; [vm_compute; reflexivity|].
  destruct (error_handler_called_once_per_failure pool_abc_throwing
    [Start] _
    ltac:(repeat split; reflexivity) ltac:(reflexivity)
    ltac:(vm_compute; reflexivity))
    as (_ & _ & _ & Hfail & _ & _ & Hpin & _).
  destruct (Hfail 1 "b" (Raised "boom") _ ltac:(vm_compute; reflexivity)
    ltac:(vm_compute; reflexivity)) as [Hcalls Herr].
  destruct (Hpin demo_handler throwing_errorHandler eq_refl eq_refl)
    as (Hg & _).
  destruct (Hg 1 "b" (Raised "boom") _ ltac:(vm_compute; reflexivity)
    ltac:(vm_compute; reflexivity)) as (_ & _ & Hheap).
  split_and!; [exact Herr|exact Hcalls|exact Hheap].
Defined.

(** X10, witness: the error handler raises for ["b"] while [start] is
    suspended on the race that no task has won yet. *)
Lemma error_handler_raise_rejects_start_witness :
  ∃ st st',
    run [Start] (init pool_abc_throwing) = Some st
    ∧ step (React 1) st = Some st'
    ∧ ∀ evs' st'', run evs' st' = Some st'' →
        returned st'' = None ∧ rejects_with (Raised "handler failed") st''.
Proof.
  eexists. 
  destruct (proj1 (error_handler_raise_rejects_start pool_abc_throwing
    [Start] _ ltac:(repeat split; reflexivity) ltac:(vm_compute; reflexivity))
    1 "b" (Raised "boom") (Raised "handler failed") throwing_errorHandler
    ltac:(reflexivity) ltac:(vm_compute; reflexivity) ltac:(reflexivity)
    ltac:(vm_compute; reflexivity)) as (st' & Hs & Hall).
  exists st'. split; [reflexivity|]. split; [exact Hs|exact Hall].
Defined.


(** C9, witness: ["c"], admitted after ["a"], completes first and its
    result comes first. *)
Lemma recorded_in_completion_order_witness :
  ∃ st st',
    run [Start] (init pool_ac) = Some st
    ∧ run [React 1; React 0] st = Some st'
    ∧ results (this st') = ["c!"; "a!"].
Proof.
  eexists.
  destruct (recorded_in_completion_order pool_ac [Start] _
    ltac:(repeat split; reflexivity) ltac:(vm_compute; reflexivity))
    as (_ & _ & Hswap & _).
  destruct (Hswap 0 1 "a" "c" "a!" "c!" ltac:(lia)
    ltac:(vm_compute; reflexivity) ltac:(vm_compute; reflexivity))
    as (st' & Hrun & Hres).
  exists st'. split; [reflexivity|]. split; [exact Hrun|exact Hres].
Defined.

(** ** Further properties of the executor *)

Section Chaining.
Context {T R E : Type}.
Implicit Types (ex : PromisePoolExecutor T R E).

(** X2. The setters compose as assignments do: a setter called again
    overrides its earlier call, and setters of different fields can be
    chained in any order. *)
Theorem setters_compose ex c c' xs xs' h h' g g' :
  (withConcurrency c' (withConcurrency c ex) = withConcurrency c' ex
   ∧ for_ xs' (for_ xs ex) = for_ xs' ex
   ∧ withHandler h' (withHandler h ex) = withHandler h' ex
   ∧ handleError g' (handleError g ex) = handleError g' ex)
  ∧ (withConcurrency c (for_ xs ex) = for_ xs (withConcurrency c ex)
     ∧ withConcurrency c (withHandler h ex)
       = withHandler h (withConcurrency c ex)
     ∧ withConcurrency c (handleError g ex)
       = handleError g (withConcurrency c ex)
     ∧ for_ xs (withHandler h ex) = withHandler h (for_ xs ex)
     ∧ for_ xs (handleError g ex) = handleError g (for_ xs ex)
     ∧ withHandler h (handleError g ex) = handleError g (withHandler h ex)).
Proof. repeat split. Qed.
End Chaining.

Section EmptyInput.
Context {T R E : Type}.
Implicit Types (cfg ex : PromisePoolExecutor T R E) (st : @State T R E).

(** X1. With a valid configuration and no items, [start ()] calls no
    handler, awaits an empty [Promise.all] and is fulfilled at its next
    job with two empty arrays; no other job exists. *)
Theorem start_without_items cfg :
  unused cfg → valid cfg → items cfg = JArray [] →
  ∃ st1 st,
    step Start (init cfg) = Some st1
    ∧ control st1 = AwaitingDrain {| awaited := []; rejection := None |}
    ∧ (∀ t, step (React t) st1 = None)
    ∧ step Resume st1 = Some st
    ∧ returned st = Some {| rv_results := []; rv_errors := [] |}
    ∧ handlerCalls st = [] ∧ errorHandlerCalls st = []
    ∧ ∀ ev, step ev st = None.
Proof.
  intros (Ht & Hr & He) Hv%validateInputs_valid Hi.
  assert (start (init cfg) = drained (init cfg)) as Hstart.
  { unfold start. simpl. rewrite Hv. unfold process. simpl. by rewrite Hi. }
  exists (drained (init cfg)),
    (set_control (Finished Fulfilled) (drained (init cfg))).
  split_and!.
  - simpl. by rewrite Hstart.
  - simpl. unfold drainActiveTasks. simpl. by rewrite Ht.
  - by intros [|t].
  - simpl. unfold resume. simpl. by rewrite Ht.
  - unfold returned. simpl. by rewrite Hr, He.
  - done.
  - done.
  - by intros [|[|t]|[|t]|].
Qed.
End EmptyInput.

(** X1, witness: the executor as the constructor leaves it. *)
Lemma start_without_items_witness :
  ∃ st1 st,
    step Start (init pool_default) = Some st1
    ∧ step Resume st1 = Some st
    ∧ returned st = Some {| rv_results := []; rv_errors := [] |}.
Proof.
  destruct (start_without_items pool_default
    ltac:(repeat split; reflexivity)
    ltac:(split_and!; [reflexivity..|intros H; discriminate H])
    ltac:(reflexivity))
    as (st1 & st & Hs & _ & _ & Hres & Hret & _).
  exists st1, st. split; [exact Hs|]. split; [exact Hres|exact Hret].
Defined.

Lemma num_ge_one (q : Q) (n : nat) :
  (q == 1)%Q → num_ge (num_of_length n) (Num q) = false → n = 0.
Proof.
  simpl. intros Hq Hn. apply not_true_iff_false in Hn.
  rewrite Qle_bool_iff, Hq in Hn. change 1%Q with (inject_Z 1) in Hn.
  rewrite <- Zle_Qle in Hn. lia.
Qed.

Section Sequential.
Context {T R E : Type}.
Implicit Types (cfg ex : PromisePoolExecutor T R E) (st : @State T R E).
Implicit Types (t : TaskRef).

Lemma unit_ceiling_limit cfg n :
  unit_ceiling cfg → limit_reached cfg n = false → n = 0.
Proof.
  intros (q & Hc & Hq). unfold limit_reached. rewrite Hc.
  by apply num_ge_one.
Qed.

Lemma sequential_startProcessing st x i :
  tasks (this st) = [] → sequential st → sequential (startProcessing x i st).
Proof.
  intros Ht [Hc _]. rewrite Ht in Hc. simpl in Hc.
  unfold sequential. simpl. rewrite Ht, length_app. simpl. split.
  - rewrite Hc. f_equal. lia.
  - intros t ->%list_elem_of_singleton. lia.
Qed.

Lemma sequential_process_from cfg es st :
  unit_ceiling cfg → same_config (this st) cfg →
  sequential st → sequential (process_from es st).
Proof.
  intros Hu. revert st. induction es as [|[i x] rest IH]; intros st Hcfg Hs;
    simpl; [done|].
  destruct (hasReachedConcurrencyLimit (this st)) eqn:Hlim; [done|].
  rewrite (hasReachedConcurrencyLimit_config _ cfg) in Hlim by done.
  apply (unit_ceiling_limit _ _ Hu), nil_length_inv in Hlim.
  apply IH; [|by apply sequential_startProcessing].
  destruct Hcfg as (? & ? & ? & ?). by repeat split.
Qed.

Lemma sequential_step cfg ev st st' :
  unit_ceiling cfg → Wf cfg st → Ctl cfg st → sequential st →
  step ev st = Some st' → sequential st'.
Proof.
  intros Hu Hwf [Hb Hctl] [Hc Hlast] Hs. destruct ev as [|t|t|].
  - simpl in Hs. destruct (control st) eqn:Hctrl; simplify_eq. unfold start.
    destruct (validateInputs (this st)) as [f|ex] eqn:Hv; [done|].
    apply validateInputs_inr in Hv as ->. rewrite set_this_this.
    unfold process. destruct (items (this st)); try done.
    apply sequential_process_from with cfg; [done|apply Hwf|done].
  - apply React_effect in Hs
      as (x & o & ts' & Hl & Hheap & Htasks & _ & Hcompl & _).
    assert (t ∈ tasks (this st)) as Hin by (apply (wf_tasks _ _ Hwf); eauto).
    rewrite splice1_indexOf in Htasks by (done || apply Hwf).
    apply Hlast in Hin as Hn.
    assert (tasks (this st) = [t]) as Hone.
    { destruct (tasks (this st)) as [|a [|b l]] eqn:Hts.
      - by apply elem_of_nil in Hin.
      - by apply list_elem_of_singleton in Hin as ->.
      - pose proof (wf_nodup _ _ Hwf) as Hnd. rewrite Hts in Hnd.
        apply NoDup_cons in Hnd as [Hab _].
        assert (S a = length (heap st)) by (apply Hlast; left).
        assert (S b = length (heap st)) by (apply Hlast; right; left).
        exfalso. apply Hab. replace a with b by lia. left. }
    assert (tasks (this st') = []) as Hnil.
    { rewrite Htasks, Hone. by rewrite filter_cons_False by (intros ?; done). }
    split.
    + rewrite Hcompl, Hc, Hheap, length_insert, Hnil, Hone. simpl.
      rewrite <- Hn. simpl. rewrite Nat.sub_0_r.
      change (0 :: seq 1 t) with (seq 0 (S t)). by rewrite seq_S.
    + rewrite Hnil. by intros u ?%elem_of_nil.
  - simpl in Hs. destruct (heap st !! t) as [[| |]|]; simplify_eq.
    unfold sequential. simpl. by rewrite length_insert.
  - simpl in Hs. unfold resume in Hs.
    destruct (control st) as [|i x rest race|all|r] eqn:Hctrl; try done.
    + destruct Hctl as (_ & _ & Hwin & _ & _ & Hbc).
      destruct (winner race) as [[|e]|]; simplify_eq; [|done].
      specialize (Hwin ltac:(by eexists)).
      assert (tasks (this st) = []) as Hnil.
      { apply nil_length_inv. apply (unit_ceiling_limit cfg); [done|].
        destruct Hbc as [Hz|Hbc]; [lia|].
        apply limit_reached_mono with (length (contenders race) - 1);
          [lia|done]. }
      apply sequential_process_from with cfg; [done| |].
      * destruct (wf_config _ _ Hwf) as (? & ? & ? & ?). by repeat split.
      * by apply sequential_startProcessing.
    + destruct (rejection all), (awaited all); by simplify_eq.
Qed.

(** X3. With a concurrency of 1 the items are processed one at a time:
    at most one task is active, every task but the last one admitted
    has completed (so that the handler is never called for an item
    before the task of the item before it has completed), and the tasks
    complete in the order of the input, so that [results] and [errors]
    are in the order of the input. *)
Theorem concurrency_one_is_sequential cfg evs st :
  unused cfg → unit_ceiling cfg → run evs (init cfg) = Some st →
  activeCount (this st) ≤ 1
  ∧ (∀ t, S t < length (heap st) → t ∈ completed st)
  ∧ completed st = seq 0 (length (completed st))
  ∧ results (this st)
    = omap (success_of cfg) (seq 0 (length (completed st)))
  ∧ (has_errorHandler cfg = false →
     errors (this st)
     = pool_error <$> omap (failure_of cfg) (seq 0 (length (completed st)))).
Proof.
  intros Hu Hone Hr.
  assert (Wf cfg st ∧ Ctl cfg st ∧ sequential st) as (Hwf & Hctl & Hc & Hlast).
  { apply (run_invariant (λ s, Wf cfg s ∧ Ctl cfg s ∧ sequential s)
             evs (init cfg) st); [| |done].
    - intros ev s s' (Hw & Hct & Hsq) Hs. split_and!.
      + by eapply Wf_step.
      + by eapply Ctl_step.
      + by eapply sequential_step.
    - split_and!; [by apply Wf_init|by apply Ctl_init|].
      destruct Hu as (Ht & _). unfold sequential. simpl. rewrite Ht.
      split; [done|]. by intros t ?%elem_of_nil. }
  assert (completed st = seq 0 (length (completed st))) as Hseq.
  { rewrite Hc at 1. rewrite Hc, length_seq. done. }
  split_and!.
  - unfold activeCount. destruct Hctl as [[Hz|Hb] _]; [lia|].
    apply (unit_ceiling_limit _ _ Hone) in Hb. lia.
  - intros t Hlt. apply (wf_completed _ _ Hwf). split; [lia|].
    intros Hin%Hlast. lia.
  - done.
  - rewrite <- Hseq. apply Hwf.
  - intros Heh. rewrite <- Hseq.
    pose proof (wf_errors _ _ Hwf) as Herr. by rewrite Heh in Herr.
Qed.
End Sequential.

(** X3, witness: three items with a concurrency of 1; the second task
    can only be started once the first has completed. *)
Lemma concurrency_one_is_sequential_witness :
  ∃ st,
    run [Start; React 0; TaskSettles 0; Resume; React 1; Resume;
         React 2; TaskSettles 2; Resume]
      (init pool_abc_one) = Some st
    ∧ results (this st) = ["a!"; "c!"]
    ∧ errors (this st) = [createFrom (Raised "boom") "b"].
Proof.
  eexists. split; [vm_compute; reflexivity|].
  destruct (concurrency_one_is_sequential pool_abc_one
    [Start; React 0; TaskSettles 0; Resume; React 1; Resume;
     React 2; TaskSettles 2; Resume] _
    ltac:(repeat split; reflexivity)
    ltac:(exists 1%Q; split; reflexivity)
    ltac:(vm_compute; reflexivity)) as (_ & _ & _ & Hres & Herr).
  split; [exact Hres|exact (Herr eq_refl)].
Defined.

Lemma num_ge_below (c : JsNumber) (n j : nat) :
  num_ge c (num_of_length n) = true → j < n →
  num_ge (num_of_length j) c = false.
Proof.
  destruct c as [|q| |]; simpl; try done.
  intros Hn%Qle_bool_iff Hlt. apply not_true_is_false. intros Hj%Qle_bool_iff.
  assert (inject_Z (Z.of_nat n) <= inject_Z (Z.of_nat j))%Q as Hle
    by (eapply Qle_trans; [exact Hn|exact Hj]).
  rewrite <- Zle_Qle in Hle. lia.
Qed.

Lemma num_ge_integer (q : Q) (k j : nat) :
  (q == inject_Z (Z.of_nat k))%Q →
  num_ge (num_of_length j) (Num q) = bool_decide (k ≤ j).
Proof.
  intros Hq. simpl. case_bool_decide as Hkj.
  - apply Qle_bool_iff. rewrite Hq, <- Zle_Qle. lia.
  - apply not_true_is_false. rewrite Qle_bool_iff, Hq, <- Zle_Qle. lia.
Qed.

Section FirstJob.
Context {T R E : Type}.
Implicit Types (cfg ex : PromisePoolExecutor T R E) (st : @State T R E).
Implicit Types (t : TaskRef).

Lemma start_all_effect es st :
  tasks (this (start_all es st))
  = tasks (this st) ++ seq (length (heap st)) (length es)
  ∧ length (heap (start_all es st)) = length (heap st) + length es
  ∧ handlerCalls (start_all es st) = handlerCalls st ++ (prod_swap <$> es)
  ∧ same_config (this (start_all es st)) (this st)
  ∧ control (start_all es st) = control st.
Proof.
  revert st. induction es as [|[i x] rest IH]; intros st.
  - simpl. rewrite !app_nil_r, Nat.add_0_r. by repeat split.
  - destruct (IH (startProcessing x i st)) as (Ht & Hh & Hc & Hcfg & Hctl).
    change (start_all ((i, x) :: rest) st)
      with (start_all rest (startProcessing x i st)).
    rewrite Ht, Hh, Hc, Hctl. simpl. rewrite length_app. simpl.
    rewrite <- !app_assoc. simpl. rewrite Nat.add_1_r.
    split_and!; [done|lia|done| |done].
    destruct Hcfg as (? & ? & ? & ?). by repeat split.
Qed.

(** While the limit is not reached the loop starts the items in a row. *)
Lemma process_from_app cfg es1 es2 st :
  same_config (this st) cfg →
  (∀ j, length (tasks (this st)) ≤ j < length (tasks (this st)) + length es1 →
     limit_reached cfg j = false) →
  process_from (es1 ++ es2) st = process_from es2 (start_all es1 st).
Proof.
  revert st. induction es1 as [|[i x] rest IH]; intros st Hcfg Hlim; [done|].
  simpl. rewrite (hasReachedConcurrencyLimit_config _ cfg) by done.
  rewrite Hlim by (simpl; lia).
  apply IH.
  - destruct Hcfg as (? & ? & ? & ?). by repeat split.
  - intros j Hj. apply Hlim. simpl in *. rewrite length_app in Hj. simpl in *.
    lia.
Qed.

Lemma start_valid cfg :
  valid cfg →
  items cfg = JArray (the_items cfg)
  ∧ start (init cfg) = process_from (entries (the_items cfg)) (init cfg).
Proof.
  intros Hv. pose proof (validateInputs_valid _ Hv) as Hok.
  destruct Hv as (_ & _ & Hi & _). unfold the_items.
  destruct (items cfg) as [| | | | | |xs|] eqn:Hitems; try done.
  split; [done|]. unfold start. simpl. rewrite Hok. unfold process. simpl.
  by rewrite Hitems.
Qed.

(** X4. When the concurrency is at least the number of items (or is
    [Infinity]), [start ()] never waits for a slot: its first job calls
    the handler for every item, in order, all the tasks are active
    together, and [start] awaits the [Promise.all] of all of them. *)
Theorem start_admits_all_below_ceiling cfg :
  unused cfg → valid cfg →
  within_ceiling cfg (length (the_items cfg)) = true →
  ∃ st,
    step Start (init cfg) = Some st
    ∧ control st
      = AwaitingDrain
          {| awaited := seq 0 (length (the_items cfg)); rejection := None |}
    ∧ tasks (this st) = seq 0 (length (the_items cfg))
    ∧ activeCount (this st) = length (the_items cfg)
    ∧ handlerCalls st = prod_swap <$> entries (the_items cfg).
Proof.
  intros (Ht & _) Hv Hwithin. destruct (start_valid _ Hv) as [_ Hstart].
  assert (∀ j, j < length (the_items cfg) → limit_reached cfg j = false)
    as Hlim.
  { intros j Hj. unfold within_ceiling in Hwithin. unfold limit_reached.
    destruct (concurrency cfg); try done. by apply num_ge_below with (n := length (the_items cfg)). }
  pose proof (process_from_app cfg (entries (the_items cfg)) [] (init cfg)
                (same_config_refl _)) as Happ.
  rewrite app_nil_r in Happ. simpl in Happ. rewrite Ht in Happ.
  rewrite length_entries in Happ.
  specialize (Happ (λ j Hj, Hlim j ltac:(simpl in Hj; lia))).
  destruct (start_all_effect (entries (the_items cfg)) (init cfg))
    as (Htasks & Hheap & Hcalls & Hcfg & Hctl).
  simpl in Htasks, Hcalls. rewrite Ht, length_entries in Htasks.
  simpl in Htasks.
  eexists. split; [simpl; by rewrite Hstart, Happ|].
  simpl. unfold drainActiveTasks, activeCount. rewrite Htasks, Hcalls.
  by rewrite length_seq.
Qed.

(** X5. When the concurrency is an integer [k] smaller than the number
    of items, the first job of [start ()] calls the handler for the
    first [k] items, in order, and then waits for a slot on the race of
    these [k] tasks, with the item of index [k] next. *)
Theorem start_admits_up_to_the_limit cfg q k :
  unused cfg → valid cfg →
  concurrency cfg = JNumber (Num q) → (q == inject_Z (Z.of_nat k))%Q →
  k < length (the_items cfg) →
  ∃ st x,
    step Start (init cfg) = Some st
    ∧ the_items cfg !! k = Some x
    ∧ control st
      = AwaitingSlot k x (drop (S k) (entries (the_items cfg)))
          {| contenders := seq 0 k; winner := None |}
    ∧ tasks (this st) = seq 0 k
    ∧ activeCount (this st) = k
    ∧ handlerCalls st = prod_swap <$> take k (entries (the_items cfg)).
Proof.
  intros (Ht & _) Hv Hc Hq Hk. destruct (start_valid _ Hv) as [_ Hstart].
  destruct (lookup_lt_is_Some_2 _ _ Hk) as [x Hx].
  assert (∀ j, limit_reached cfg j = bool_decide (k ≤ j)) as Hlim.
  { intros j. unfold limit_reached. rewrite Hc. by apply num_ge_integer. }
  set (es1 := take k (entries (the_items cfg))).
  assert (length es1 = k) as Hlen.
  { unfold es1. rewrite length_take, length_entries. lia. }
  assert (entries (the_items cfg)
          = es1 ++ (k, x) :: drop (S k) (entries (the_items cfg))) as Hsplit.
  { unfold es1. rewrite <- (take_drop k (entries (the_items cfg))) at 1.
    f_equal. apply drop_S. by rewrite entries_lookup, Hx. }
  pose proof (process_from_app cfg es1
                ((k, x) :: drop (S k) (entries (the_items cfg))) (init cfg)
                (same_config_refl _)) as Happ.
  rewrite <- Hsplit in Happ. simpl in Happ. rewrite Ht, Hlen in Happ.
  specialize (Happ (λ j Hj, ltac:(rewrite Hlim; apply bool_decide_eq_false;
                                  simpl in Hj; lia))).
  destruct (start_all_effect es1 (init cfg))
    as (Htasks & Hheap & Hcalls & Hcfg & Hctl).
  simpl in Htasks, Hcalls. rewrite Ht, Hlen in Htasks. simpl in Htasks.
  assert (hasReachedConcurrencyLimit (this (start_all es1 (init cfg))) = true)
    as Hreached.
  { rewrite (hasReachedConcurrencyLimit_config _ cfg) by done.
    rewrite Htasks, length_seq, Hlim. by apply bool_decide_eq_true. }
  rewrite Hreached in Happ.
  eexists _, x. split; [simpl; by rewrite Hstart, Happ|].
  simpl. unfold waitForTaskToFinish, activeCount. rewrite Htasks, Hcalls.
  by rewrite length_seq.
Qed.
End FirstJob.

(** X4, witness: two items with a concurrency of 10. *)
Lemma start_admits_all_below_ceiling_witness :
  ∃ st,
    step Start (init pool_ab) = Some st
    ∧ tasks (this st) = [0; 1]
    ∧ handlerCalls st = [("a", 0); ("b", 1)].
Proof.
  destruct (start_admits_all_below_ceiling pool_ab
    ltac:(repeat split; reflexivity)
    ltac:(split_and!; [reflexivity..|intros H; discriminate H])
    ltac:(vm_compute; reflexivity)) as (st & Hs & _ & Htasks & _ & Hcalls).
  exists st. split; [exact Hs|]. split; [exact Htasks|exact Hcalls].
Defined.

(** X5, witness: three items with a concurrency of 2. *)
Lemma start_admits_up_to_the_limit_witness :
  ∃ st,
    step Start (init pool_abc_quiet) = Some st
    ∧ tasks (this st) = [0; 1]
    ∧ handlerCalls st = [("a", 0); ("b", 1)].
Proof.
  destruct (start_admits_up_to_the_limit pool_abc_quiet 2 2
    ltac:(repeat split; reflexivity)
    ltac:(split_and!; [reflexivity..|intros _; reflexivity])
    ltac:(reflexivity) ltac:(reflexivity) ltac:(vm_compute; lia))
    as (st & x & Hs & _ & _ & Htasks & _ & Hcalls).
  exists st. split; [exact Hs|]. split; [exact Htasks|exact Hcalls].
Defined.

Section Unvalidated.
Context {T R E : Type}.
Implicit Types (ex : PromisePoolExecutor T R E) (st : @State T R E).

(** X6. [process ()] called without [validateInputs ()] on an executor
    whose concurrency is a number that is at most 0 (a finite number or
    [-Infinity]) never settles when there is an item: the limit counts
    as reached with no active task, the loop awaits [Promise.race] of
    an empty array, which no task can settle, the handler is never
    called and no job is left.  [start ()] rejects such a configuration
    instead. *)
Theorem process_without_slot_never_settles ex c x xs :
  unused ex → items ex = JArray (x :: xs) →
  concurrency ex = JNumber c → num_ge (num_of_length 0) c = true →
  (∃ rest,
     control (process (init ex))
     = AwaitingSlot 0 x rest {| contenders := []; winner := None |})
  ∧ handlerCalls (process (init ex)) = []
  ∧ (∀ evs st, run evs (process (init ex)) = Some st →
       evs = [] ∧ returned st = None ∧ rejected st = None)
  ∧ (typeof (handler ex) = "function"%string →
     validateInputs ex = inl (ConcurrencyInvalid (JNumber c) "number")).
Proof.
  intros (Ht & _) Hi Hc Hq.
  assert (hasReachedConcurrencyLimit ex = true) as Hlim.
  { unfold hasReachedConcurrencyLimit, activeCount. by rewrite Hc, Ht. }
  assert (process (init ex)
          = processingSlot 0 x (imap ((λ i y, (i, y)) ∘ S) xs) (init ex))
    as Hp.
  { unfold process. simpl. rewrite Hi. unfold entries. simpl.
    by rewrite Hlim. }
  rewrite Hp. split_and!.
  - eexists. simpl. unfold waitForTaskToFinish. simpl. by rewrite Ht.
  - done.
  - intros [|ev evs] st Hr; simpl in Hr.
    + simplify_eq. by split_and!.
    + assert (step ev (processingSlot 0 x (imap ((λ i y, (i, y)) ∘ S) xs)
                         (init ex)) = None) as Hs
        by by destruct ev as [|[|t]|[|t]|].
      by rewrite Hs in Hr.
  - intros Hh%String.eqb_eq. unfold validateInputs. rewrite Hh, Hc. simpl.
    assert (num_ge c (Num 1) = false) as ->; [|done].
    destruct c as [|q| |]; simpl in *; try done.
    apply Qle_bool_iff in Hq. change (q <= 0)%Q in Hq.
    apply not_true_is_false. intros H1%Qle_bool_iff. lra.
Qed.
End Unvalidated.

(** X6, witness: two items and a concurrency of 0. *)
Lemma process_without_slot_never_settles_witness :
  handlerCalls (process (init pool_zero)) = []
  ∧ validateInputs pool_zero
    = inl (ConcurrencyInvalid (JNumber (Num 0)) "number").
Proof.
  destruct (process_without_slot_never_settles pool_zero (Num 0) "a" ["b"]
    ltac:(repeat split; reflexivity) ltac:(reflexivity) ltac:(reflexivity)
    ltac:(reflexivity)) as (_ & Hcalls & _ & Hv).
  split; [exact Hcalls|exact (Hv eq_refl)].
Defined.

(** The same with a concurrency of [-Infinity], evaluated. *)
Example process_without_slot_negative_infinity :
  hasReachedConcurrencyLimit pool_negative_infinity = true
  ∧ control (process (init pool_negative_infinity))
    = AwaitingSlot 0 "a" [(1, "b")] {| contenders := []; winner := None |}
  ∧ handlerCalls (process (init pool_negative_infinity)) = []
  ∧ (∀ ev, step ev (process (init pool_negative_infinity)) = None)
  ∧ validateInputs pool_negative_infinity
    = inl (ConcurrencyInvalid (JNumber NegInfinity) "number").
Proof.
  split_and!; try (vm_compute; reflexivity).
  by intros [|[|t]|[|t]|].
Qed.

Section Fulfilment.
Context {T R E : Type}.
Implicit Types (cfg ex : PromisePoolExecutor T R E) (st : @State T R E).
Implicit Types (t : TaskRef).

Lemma omap_all_None {A B} (f : A → option B) (l : list A) :
  (∀ a, a ∈ l → f a = None) → omap f l = [].
Proof.
  induction l as [|a l IH]; intros Hl; [done|].
  unfold omap in *. simpl. rewrite (Hl a) by left.
  apply IH. intros b Hb. apply Hl. by right.
Qed.

(** X7. When [start ()] is fulfilled no task is active any more:
    [activeCount ()] is 0, [hasReachedConcurrencyLimit ()] is false, and
    the reaction of the task of every item has run. *)
Theorem fulfilled_leaves_no_active_task cfg evs st rv :
  unused cfg → run evs (init cfg) = Some st → returned st = Some rv →
  activeCount (this st) = 0
  ∧ hasReachedConcurrencyLimit (this st) = false
  ∧ length (heap st) = length (the_items cfg)
  ∧ (∀ t x, the_items cfg !! t = Some x →
       t ∈ completed st
       ∧ ∀ y o, heap st !! t ≠ Some (Running y o)).
Proof.
  intros Hu Hr [Hc _]%returned_Some.
  destruct (Inv_run _ _ _ Hu Hr) as [Hwf [_ Hctl]].
  pose proof (started_validated _ _ _ Hu Hr) as Hv.
  rewrite Hc in Hctl, Hv. destruct Hctl as [Hlen Hnil].
  destruct (completed_all _ _ _ Hu Hr Hc) as (Hperm & _ & _).
  split_and!.
  - unfold activeCount. by rewrite Hnil.
  - rewrite (hasReachedConcurrencyLimit_config _ cfg) by apply Hwf.
    rewrite Hnil. simpl. unfold limit_reached.
    destruct (validateInputs_number _ _ Hv) as (_ & (c & -> & Hge) & _).
    by apply num_ge_1_not_reached_0.
  - done.
  - intros t x Hx. split.
    + rewrite Hperm, elem_of_seq. apply lookup_lt_Some in Hx. lia.
    + intros y o Hl.
      assert (t ∈ tasks (this st)) as Hin
        by (apply (wf_tasks _ _ Hwf); eauto).
      rewrite Hnil in Hin. by apply elem_of_nil in Hin.
Qed.

(** X8. When [start ()] is fulfilled, [results] holds the value of
    every item whose handler succeeded, once each, in some order, with
    or without an error handler; [errors] holds the wrapped error of
    every item that failed, once each, when there is no error handler;
    and when no item fails [errors] is empty and [results] has one entry
    for each item. *)
Theorem fulfilled_results_are_the_successes cfg evs st rv :
  unused cfg → run evs (init cfg) = Some st → returned st = Some rv →
  rv_results rv
    ≡ₚ omap (success_of cfg) (seq 0 (length (the_items cfg)))
  ∧ rv_errors rv
    ≡ₚ (if has_errorHandler cfg then []
        else pool_error
               <$> omap (failure_of cfg) (seq 0 (length (the_items cfg))))
  ∧ ((∀ t, t < length (the_items cfg) → failure_of cfg t = None) →
     rv_errors rv = []
     ∧ length (rv_results rv) = length (the_items cfg)).
Proof.
  intros Hu Hr (Hc & -> & ->)%returned_Some.
  destruct (Inv_run _ _ _ Hu Hr) as [Hwf _].
  destruct (completed_all _ _ _ Hu Hr Hc) as (Hperm & _ & _).
  pose proof (wf_results _ _ Hwf) as Hres.
  pose proof (wf_errors _ _ Hwf) as Herr.
  assert (∀ t, t ∈ completed st → t < length (the_items cfg)) as Hlt.
  { intros t. rewrite Hperm, elem_of_seq. lia. }
  split_and!.
  - by rewrite Hres, Hperm.
  - rewrite Herr. destruct (has_errorHandler cfg); [done|]. by rewrite Hperm.
  - intros Hnone.
    pose proof (length_omap_success_failure cfg (completed st) Hlt) as Hlen.
    rewrite (omap_all_None (failure_of cfg)) in Hlen, Herr
      by (intros t Ht; by apply Hnone, Hlt).
    split.
    + rewrite Herr. by destruct (has_errorHandler cfg).
    + rewrite Hres. simpl in Hlen. rewrite Nat.add_0_r in Hlen.
      by rewrite Hlen, Hperm, length_seq.
Qed.
End Fulfilment.

(** X7, X8, witnesses: the run of the items ["a"] and ["b"] in which
    ["b"] completes first. *)
Lemma fulfilled_leaves_no_active_task_witness :
  ∃ st,
    run [Start; React 1; React 0; TaskSettles 0; Resume] (init pool_ab)
    = Some st
    ∧ activeCount (this st) = 0
    ∧ hasReachedConcurrencyLimit (this st) = false.
Proof.
  eexists. split; [vm_compute; reflexivity|].
  destruct (fulfilled_leaves_no_active_task pool_ab
    [Start; React 1; React 0; TaskSettles 0; Resume] _ _
    ltac:(repeat split; reflexivity) ltac:(vm_compute; reflexivity)
    ltac:(vm_compute; reflexivity)) as (Hcount & Hlim & _).
  split; [exact Hcount|exact Hlim].
Defined.

Lemma fulfilled_results_are_the_successes_witness :
  ∃ st rv,
    run [Start; React 1; React 0; TaskSettles 0; Resume] (init pool_ab)
    = Some st
    ∧ returned st = Some rv
    ∧ rv_results rv ≡ₚ ["a!"]
    ∧ rv_errors rv ≡ₚ [createFrom (Raised "boom") "b"].
Proof.
  eexists _, _. split; [vm_compute; reflexivity|].
  split; [vm_compute; reflexivity|].
  destruct (fulfilled_results_are_the_successes pool_ab
    [Start; React 1; React 0; TaskSettles 0; Resume] _ _
    ltac:(repeat split; reflexivity) ltac:(vm_compute; reflexivity)
    ltac:(vm_compute; reflexivity)) as (Hres & Herr & _).
  split; [exact Hres|exact Herr].
Defined.

Section GentleErrorHandler.
Context {T R E : Type}.
Implicit Types (cfg ex : PromisePoolExecutor T R E) (st : @State T R E).
Implicit Types (t : TaskRef).

(** X9. With a valid configuration whose error handler never raises
    (each call returns, or returns a promise that is fulfilled), no
    task is ever rejected and [start ()] is never rejected, however
    many items fail; the run can always be carried on until [start ()]
    is fulfilled, and when [start] is settled it is fulfilled. *)
Theorem gentle_error_handler_never_rejects cfg evs st :
  unused cfg → validateInputs cfg = inr cfg → gentle cfg →
  run evs (init cfg) = Some st →
  rejected st = None
  ∧ (∀ t e, heap st !! t ≠ Some (Settled (Rejected e)))
  ∧ (∃ evs' st' rv, run evs' st = Some st' ∧ returned st' = Some rv)
  ∧ (∀ s, control st = Finished s → ∃ rv, returned st = Some rv).
Proof.
  intros Hu Hv Hg Hr.
  assert (∀ evs0 st0, run evs0 (init cfg) = Some st0 → Calm st0) as Hcalm.
  { intros evs0 st0 Hr0.
    apply (run_invariant (λ s, Wf cfg s ∧ Calm s) evs0 (init cfg) st0);
      [| |done].
    - intros ev s s' [Hwf Hc] Hs. split; [by eapply Wf_step|].
      by eapply Calm_step.
    - split; [by apply Wf_init|]. by split. }
  assert (∀ st0 s, Calm st0 → control st0 = Finished s →
            returned st0 = Some {| rv_results := results (this st0);
                                   rv_errors := errors (this st0) |})
    as Hret.
  { intros st0 s [_ Hq] Hc. unfold returned. rewrite Hc in Hq |- *.
    by destruct s. }
  destruct (Inv_run _ _ _ Hu Hr) as [Hwf Hctl].
  pose proof (Hcalm _ _ Hr) as Hc. split_and!.
  - destruct Hc as [_ Hq]. unfold rejected.
    by destruct (control st) as [| | |[|e]].
  - intros t e Hl. destruct Hc as [Hh _]. by apply Hh in Hl.
  - destruct (run_completes cfg st Hv Hwf Hctl)
      as (evs' & st' & Hr' & s & Hfin).
    assert (run (evs ++ evs') (init cfg) = Some st') as Hrr.
    { by rewrite run_app, Hr. }
    eexists evs', st', _. split; [done|].
    by apply (Hret st' s (Hcalm _ _ Hrr)).
  - intros s Hfin. eexists. by apply (Hret st s).
Qed.
End GentleErrorHandler.

(** X9, witness: three items, of which ["b"] fails, with an error
    handler that returns. *)
Lemma gentle_error_handler_never_rejects_witness :
  ∃ st,
    run [Start; React 1; React 0; TaskSettles 0; Resume;
         React 2; TaskSettles 2; Resume]
      (init pool_abc_quiet) = Some st
    ∧ rejected st = None
    ∧ ∃ rv, returned st = Some rv.
Proof.
  eexists. split; [vm_compute; reflexivity|].
  destruct (gentle_error_handler_never_rejects pool_abc_quiet
    [Start; React 1; React 0; TaskSettles 0; Resume;
     React 2; TaskSettles 2; Resume] _
    ltac:(repeat split; reflexivity) ltac:(vm_compute; reflexivity)
    ltac:(intros g e x [= <-]; left; reflexivity)
    ltac:(vm_compute; reflexivity)) as (Hrej & _ & _ & Hfin).
  split; [exact Hrej|].
  exact (Hfin Fulfilled ltac:(vm_compute; reflexivity)).
Defined.
